(** * htcondenser example jobs: a shallow embedding and its properties

    The repository holds two example payloads:
    - [examples/simple_exe_job/showsize.c], a C program printing integer
      limits;
    - [examples/simple_root6_job/hist.C], a ROOT macro drawing a histogram
      to a PDF and filling a small [TTree] that it stores in a [TFile].

    Part I embeds both programs together with the slice of their run-time
    libraries they call (the C [printf], IEEE-754 arithmetic, the ROOT
    objects).  Part II models the job execution core that the
    specification describes around them.  Part III states and proves the
    properties. *)

From Stdlib Require Import ZArith List String Ascii QArith Lia DecimalString.
From Stdlib Require Import SpecFloat.
From Stdlib Require DecimalFacts DecimalPos DecimalN DecimalZ.
From Stdlib Require Qabs Qpower.
From stdpp Require Import gmap strings list.

Local Open Scope Z_scope.
Local Open Scope string_scope.

(* ===================================================================== *)
(** * Part I.a  The C side: [showsize.c]                                  *)
(* ===================================================================== *)

(** The line feed: C's ['\n']. *)
Definition LF : ascii := ascii_of_nat 10.
Definition nl : string := String LF EmptyString.

Module Libc.

(** [<limits.h>] is not part of the repository: the two macros the
    program reads are parameters of the platform. *)
Class Limits := {
    INT_MAX : Z;
    ULLONG_MAX : Z
  }.

(** The usual LP64 values. *)
Definition lp64 : Limits :=
  {| INT_MAX := 2 ^ 31 - 1; ULLONG_MAX := 2 ^ 64 - 1 |}.

(** A variadic argument, after the default promotions. *)
Inductive vararg :=
  | VInt (v : Z)
  | VULongLong (v : Z).

(** Decimal conversions of [%d] and [%llu]. *)
Definition dec_signed (v : Z) : string := NilZero.string_of_int (Z.to_int v).
Definition dec_unsigned (v : Z) : string :=
  NilZero.string_of_uint (N.to_uint (Z.to_N v)).

(** Expansion of a format string.  Only the directives the program uses
    are interpreted ([%d], [%llu], and [%%]); a directive without a
    matching argument, or any other directive, has no defined result. *)
Fixpoint format (fmt : string) (args : list vararg) : option string :=
  match fmt with
  | EmptyString => Some EmptyString
  | String c rest =>
      if Ascii.eqb c "%" then
        match rest with
        | EmptyString => None
        | String c1 rest1 =>
            if Ascii.eqb c1 "d" then
              match args with
              | VInt v :: args' =>
                  option_map (String.append (dec_signed v)) (format rest1 args')
              | _ => None
              end
            else if Ascii.eqb c1 "%" then
              option_map (String "%") (format rest1 args)
            else if Ascii.eqb c1 "l" then
              match rest1 with
              | String c2 (String c3 rest3) =>
                  if Ascii.eqb c2 "l" && Ascii.eqb c3 "u" then
                    match args with
                    | VULongLong v :: args' =>
                        option_map (String.append (dec_unsigned v))
                                   (format rest3 args')
                    | _ => None
                    end
                  else None
              | _ => None
              end
            else None
        end
      else option_map (String c) (format rest args)
  end.

(** A process, as far as the program can change it: what has been
    written to standard output so far. *)
Record process := { stdout : string }.

(** Computations of the program: they may get stuck ([None]) on
    undefined behaviour, and otherwise return a value and the new
    process state. *)
Definition prog (A : Type) : Type := process -> option (A * process).

Definition ret {A} (a : A) : prog A := fun p => Some (a, p).
Definition bind {A B} (m : prog A) (k : A -> prog B) : prog B :=
  fun p => match m p with
           | Some (a, p') => k a p'
           | None => None
           end.

(** [printf]: appends the expansion to standard output and returns the
    number of characters written. *)
Definition printf (fmt : string) (args : list vararg) : prog Z :=
  fun p => match format fmt args with
           | Some s =>
               Some (Z.of_nat (String.length s),
                     {| stdout := String.append (stdout p) s |})
           | None => None
           end.

(** Splitting a text into its lines: every line feed ends a line; a
    trailing piece without line feed counts as a line too. *)
Fixpoint lines_from (cur : string) (s : string) : list string :=
  match s with
  | EmptyString =>
      match cur with
      | EmptyString => []
      | _ => [cur]
      end
  | String c rest =>
      if Ascii.eqb c LF then cur :: lines_from EmptyString rest
      else lines_from (String.append cur (String c EmptyString)) rest
  end.

Definition lines (s : string) : list string := lines_from EmptyString s.

End Libc.

Module Showsize.
Import Libc.

Notation "x <- m ;; k" := (bind m (fun x => k))
  (at level 100, m at next level, right associativity).

Section Program.
Context {limits : Limits}.

(** [int main(int arg, char** argv)] *)
Definition main (arg : Z) (argv : list string) : prog Z :=
  _ <- printf ("Hi" ++ nl) [] ;;
  _ <- printf ("Max int = %d" ++ nl) [VInt INT_MAX] ;;
  _ <- printf ("Max unsigned long long = %llu" ++ nl) [VULongLong ULLONG_MAX] ;;
  ret 0.

(** Running the program from a fresh process: exit status and the
    bytes on standard output, if it terminates normally. *)
Definition run (arg : Z) (argv : list string) : option (Z * string) :=
  match main arg argv {| stdout := EmptyString |} with
  | Some (status, p) => Some (status, stdout p)
  | None => None
  end.
End Program.

End Showsize.

(* ===================================================================== *)
(** * Part I.b  IEEE-754 numbers                                          *)
(* ===================================================================== *)

(** ROOT's [Double_t] and C's [float] are the binary64 and binary32
    formats.  Values are the [spec_float]s of the standard library, the
    operations are its [SFmul] and [SFsub] (round to nearest, ties to
    even) at the precision and exponent range of each format. *)
Module IEEE.

Definition prec64 : Z := 53.
Definition emax64 : Z := 1024.
Definition prec32 : Z := 24.
Definition emax32 : Z := 128.

Definition dmul : spec_float -> spec_float -> spec_float := SFmul prec64 emax64.
Definition dsub : spec_float -> spec_float -> spec_float := SFsub prec64 emax64.

(** Conversion [int -> double] (exact for the literals of the macro). *)
Definition double_of_int (z : Z) : spec_float :=
  binary_normalize prec64 emax64 z 0 false.

(** Conversion [double -> float]: the value is rounded to 24 bits. *)
Definition float_of_double (x : spec_float) : spec_float :=
  match x with
  | S754_finite s m e => binary_round prec32 emax32 s m e
  | _ => x
  end.

Definition is_finite (x : spec_float) : bool :=
  match x with
  | S754_zero _ | S754_finite _ _ _ => true
  | _ => false
  end.

(** The rational number [m * 2^e]. *)
Definition dyadic (m e : Z) : Q :=
  match e with
  | Z0 => inject_Z m
  | Zpos p => inject_Z (m * Z.pow_pos 2 p)
  | Zneg p => Qmake m (Pos.pow 2 p)
  end.

(** The value of a finite number (infinities and NaN carry none and are
    sent to 0: statements about values come with [is_finite]). *)
Definition SF2Q (x : spec_float) : Q :=
  match x with
  | S754_finite s m e => dyadic (cond_Zopp s (Zpos m)) e
  | _ => 0%Q
  end.

(** A finite number in the closed unit interval. *)
Definition in_unit_interval (x : spec_float) : Prop :=
  is_finite x = true /\ (0 <= SF2Q x)%Q /\ (SF2Q x <= 1)%Q.

End IEEE.

(* ===================================================================== *)
(** * Part I.c  Paths and files                                           *)
(* ===================================================================== *)

Module Path.

Definition is_absolute (p : string) : bool :=
  match p with
  | String c _ => Ascii.eqb c "/"
  | EmptyString => false
  end.

Definition is_relative (p : string) : bool := negb (is_absolute p).

(** The file a process names by [p] while its current directory is
    [cwd]. *)
Definition resolve (cwd p : string) : string :=
  if is_absolute p then p else cwd ++ "/" ++ p.

(** The components of a path, split at the slashes. *)
Fixpoint components_from (cur : string) (p : string) : list string :=
  match p with
  | EmptyString => [cur]
  | String c rest =>
      if Ascii.eqb c "/" then cur :: components_from EmptyString rest
      else components_from (cur ++ String c EmptyString) rest
  end.

Definition components (p : string) : list string :=
  components_from EmptyString p.

Definition climbs (p : string) : bool :=
  existsb (String.eqb "..") (components p).

(** [strip_prefix pre s]: the rest of [s] after [pre], if [s] starts with
    it. *)
Fixpoint strip_prefix (pre s : string) : option string :=
  match pre with
  | EmptyString => Some s
  | String a pre' =>
      match s with
      | String b s' => if Ascii.eqb a b then strip_prefix pre' s' else None
      | EmptyString => None
      end
  end.

(** [inside dir p]: [p] names something below the directory [dir], and
    does not climb out of it again. *)
Definition inside (dir p : string) : bool :=
  match strip_prefix (dir ++ "/") p with
  | Some rest => negb (String.eqb rest EmptyString) && negb (climbs rest)
  | None => false
  end.

End Path.

(* ===================================================================== *)
(** * Part I.d  The ROOT side: [hist.C]                                   *)
(* ===================================================================== *)

(** ROOT itself is an external library.  The part of it the macro calls is
    modelled at the level of its objects: histograms, canvases, trees with
    branches bound to the addresses of local variables, files holding the
    objects written to them, and the global random generator.  Bin
    contents and byte encodings are not modelled. *)
Module Root.
Import IEEE.

(** A one-dimensional histogram. *)
Record TH1F := {
    h_title : string;
    h_nbinsx : Z;
    h_xlow : Z;
    h_xup : Z;
    h_entries : Z;
    (** where its random sample starts in the generator's sequence *)
    h_sample_from : option N
  }.

(** A canvas: the names of the objects [Draw] has put on it, in drawing
    order.  What painting adds to the list of primitives of a pad (the
    frame of a histogram, for one) is not modelled. *)
Record TCanvas := {
    c_title : string;
    c_ww : Z;
    c_wh : Z;
    c_primitives : list string
  }.

(** One entry of a tree: the value of each branch, by branch name. *)
Definition entry : Type := list (string * spec_float).

Record TTree := {
    t_title : string;
    (** the directory (an open file, by the name it was opened with) that
        owns the tree; [None] is the in-memory directory *)
    t_directory : option string;
    (** branch name and the address it reads on [Fill] *)
    t_branches : list (string * string);
    t_entries : list entry
  }.

(** What a file on disk holds. *)
Inductive FileData :=
  | PdfDocument (drawn : list (string * TH1F))
  | RootFile (keys : list (string * TTree))
  | OtherFile (bytes : string).

(** What a session did to the outside: a file written (the name the
    caller gave, and the file it resolved to) or a tree filled. *)
Inductive Event :=
  | EvWrite (name target : string)
  | EvFill (tree : string).

(** The interpreter session.  Objects live in ordered tables, keyed by
    object name; addresses of local [float]s are their variable names. *)
Record Session := {
    cwd : string;
    hists : list (string * TH1F);
    pads : list (string * TCanvas);
    gPad : option string;
    trees : list (string * TTree);
    files : list string;
    gDirectory : option string;
    floats : list (string * spec_float);
    ndraws : N;
    disk : gmap string FileData;
    events : list Event
  }.

Definition start (dir : string) (d : gmap string FileData) : Session :=
  {| cwd := dir; hists := []; pads := []; gPad := None; trees := [];
     files := []; gDirectory := None; floats := []; ndraws := 0%N;
     disk := d; events := [] |}.

(** Field updates. *)
Definition set_hists v s :=
  {| cwd := cwd s; hists := v; pads := pads s; gPad := gPad s;
     trees := trees s; files := files s; gDirectory := gDirectory s; floats := floats s;
     ndraws := ndraws s; disk := disk s; events := events s |}.
Definition set_pads v s :=
  {| cwd := cwd s; hists := hists s; pads := v; gPad := gPad s;
     trees := trees s; files := files s; gDirectory := gDirectory s; floats := floats s;
     ndraws := ndraws s; disk := disk s; events := events s |}.
Definition set_gPad v s :=
  {| cwd := cwd s; hists := hists s; pads := pads s; gPad := v;
     trees := trees s; files := files s; gDirectory := gDirectory s; floats := floats s;
     ndraws := ndraws s; disk := disk s; events := events s |}.
Definition set_trees v s :=
  {| cwd := cwd s; hists := hists s; pads := pads s; gPad := gPad s;
     trees := v; files := files s; gDirectory := gDirectory s; floats := floats s;
     ndraws := ndraws s; disk := disk s; events := events s |}.
Definition set_files v s :=
  {| cwd := cwd s; hists := hists s; pads := pads s; gPad := gPad s;
     trees := trees s; files := v; gDirectory := gDirectory s; floats := floats s;
     ndraws := ndraws s; disk := disk s; events := events s |}.
Definition set_gDirectory v s :=
  {| cwd := cwd s; hists := hists s; pads := pads s; gPad := gPad s;
     trees := trees s; files := files s; gDirectory := v; floats := floats s;
     ndraws := ndraws s; disk := disk s; events := events s |}.
Definition set_floats v s :=
  {| cwd := cwd s; hists := hists s; pads := pads s; gPad := gPad s;
     trees := trees s; files := files s; gDirectory := gDirectory s; floats := v;
     ndraws := ndraws s; disk := disk s; events := events s |}.
Definition set_ndraws v s :=
  {| cwd := cwd s; hists := hists s; pads := pads s; gPad := gPad s;
     trees := trees s; files := files s; gDirectory := gDirectory s; floats := floats s;
     ndraws := v; disk := disk s; events := events s |}.
Definition set_disk v s :=
  {| cwd := cwd s; hists := hists s; pads := pads s; gPad := gPad s;
     trees := trees s; files := files s; gDirectory := gDirectory s; floats := floats s;
     ndraws := ndraws s; disk := v; events := events s |}.
Definition set_events v s :=
  {| cwd := cwd s; hists := hists s; pads := pads s; gPad := gPad s;
     trees := trees s; files := files s; gDirectory := gDirectory s; floats := floats s;
     ndraws := ndraws s; disk := disk s; events := v |}.

(** Ordered tables. *)
Fixpoint assoc {A} (k : string) (l : list (string * A)) : option A :=
  match l with
  | [] => None
  | (k', v) :: l' => if String.eqb k k' then Some v else assoc k l'
  end.

(** Replaces the binding of [k] in place, or appends a new one. *)
Fixpoint put {A} (k : string) (v : A) (l : list (string * A)) : list (string * A) :=
  match l with
  | [] => [(k, v)]
  | (k', v') :: l' =>
      if String.eqb k k' then (k, v) :: l' else (k', v') :: put k v l'
  end.

(** Computations of the macro: a step may throw or crash ([None]). *)
Definition M (A : Type) : Type := Session -> option (A * Session).

Definition ret {A} (a : A) : M A := fun s => Some (a, s).
Definition bind {A B} (m : M A) (k : A -> M B) : M B :=
  fun s => match m s with
           | Some (a, s') => k a s'
           | None => None
           end.
Definition fail {A} : M A := fun _ => None.

Notation "x <- m ;; k" := (bind m (fun x => k))
  (at level 100, m at next level, right associativity).
Notation "m ;;; k" := (bind m (fun _ => k))
  (at level 100, right associativity).

(** Writing the file named [p]: the data lands at the resolved path, and
    the write is recorded. *)
Definition write_file (p : string) (d : FileData) : M unit :=
  fun s =>
    let target := Path.resolve (cwd s) p in
    Some (tt, set_events (events s ++ [EvWrite p target])
                (set_disk (<[target := d]> (disk s)) s)).

(** [for (int i = lo; i < hi; ++i) body], for a body that leaves [i]
    alone. *)
Fixpoint for_count (n : nat) (i : Z) (body : Z -> M unit) : M unit :=
  match n with
  | O => ret tt
  | S n' => body i ;;; for_count n' (i + 1) body
  end.

Definition for_range (lo hi : Z) (body : Z -> M unit) : M unit :=
  for_count (Z.to_nat (hi - lo)) lo body.

(** Functions [FillRandom] knows by name. *)
Definition known_function (fname : string) : bool :=
  existsb (String.eqb fname) ["gaus"; "gausn"; "expo"; "landau"; "landaun"].

Fixpoint has_suffix_from (n : nat) (suffix s : string) : bool :=
  match n with
  | O => String.eqb s suffix
  | S n' =>
      match s with
      | String _ s' => has_suffix_from n' suffix s'
      | EmptyString => false
      end
  end.

Definition has_suffix (suffix s : string) : bool :=
  has_suffix_from (String.length s - String.length suffix) suffix s
  && Nat.leb (String.length suffix) (String.length s).

(** The objects among [names] that exist in the table, in order. *)
Definition lookup_all {A} (names : list string) (tbl : list (string * A))
  : list (string * A) :=
  omap (fun n => option_map (pair n) (assoc n tbl)) names.

Definition owned_by (f : string) (kt : string * TTree) : bool :=
  match t_directory (snd kt) with
  | Some d => String.eqb d f
  | None => false
  end.

Section Calls.
(** The numbers [gRandom->Rndm()] returns, call after call. *)
Variable gRandom : N -> spec_float.

(** [gRandom->Rndm(i)]: the argument is ignored. *)
Definition Rndm (i : Z) : M spec_float :=
  fun s => Some (gRandom (ndraws s), set_ndraws (N.succ (ndraws s)) s).

(** [TH1F h(name, title, nbinsx, xlow, xup)]; the handle is the
    object's name. *)
Definition new_TH1F (name title : string) (nbinsx xlow xup : Z) : M string :=
  fun s =>
    let h := {| h_title := title; h_nbinsx := nbinsx; h_xlow := xlow;
                h_xup := xup; h_entries := 0; h_sample_from := None |} in
    Some (name, set_hists (put name h (hists s)) s).

(** [h.FillRandom(fname, ntimes)]: one number of the generator per
    entry; an unknown function name fills nothing. *)
Definition FillRandom (h fname : string) (ntimes : Z) : M unit :=
  fun s =>
    match assoc h (hists s) with
    | None => None
    | Some hh =>
        if known_function fname then
          let hh' := {| h_title := h_title hh; h_nbinsx := h_nbinsx hh;
                        h_xlow := h_xlow hh; h_xup := h_xup hh;
                        h_entries := h_entries hh + Z.max 0 ntimes;
                        h_sample_from := Some (ndraws s) |} in
          Some (tt, set_ndraws (ndraws s + Z.to_N ntimes)%N
                      (set_hists (put h hh' (hists s)) s))
        else Some (tt, s)
    end.

(** [TCanvas c(name, title, ww, wh)]: the new canvas becomes the
    current pad. *)
Definition new_TCanvas (name title : string) (ww wh : Z) : M string :=
  fun s =>
    let c := {| c_title := title; c_ww := ww; c_wh := wh; c_primitives := [] |} in
    Some (name, set_gPad (Some name) (set_pads (put name c (pads s)) s)).

(** [h.Draw()]: appends the histogram to the current pad, creating the
    default canvas [c1] when there is none. *)
Definition Draw (h : string) : M unit :=
  fun s =>
    match assoc h (hists s) with
    | None => None
    | Some _ =>
        let cname := match gPad s with Some c => c | None => "c1" end in
        let c := match assoc cname (pads s) with
                 | Some c => c
                 | None => {| c_title := cname; c_ww := 700; c_wh := 500;
                              c_primitives := [] |}
                 end in
        let c' := {| c_title := c_title c; c_ww := c_ww c; c_wh := c_wh c;
                     c_primitives := c_primitives c ++ [h] |} in
        Some (tt, set_gPad (Some cname) (set_pads (put cname c' (pads s)) s))
    end.

(** [c.SaveAs(filename)]: the format follows the extension; only the
    PDF output carries a modelled content.  Painting the pad for the
    output is not modelled: the session keeps the pad as [Draw] left it. *)
Definition SaveAs (c filename : string) : M unit :=
  fun s =>
    match assoc c (pads s) with
    | None => None
    | Some cc =>
        let data := if has_suffix ".pdf" filename
                    then PdfDocument (lookup_all (c_primitives cc) (hists s))
                    else OtherFile EmptyString in
        write_file filename data s
    end.

(** [float x(v)]: a local variable; its address is its name. *)
Definition new_float (x : string) (v : spec_float) : M string :=
  fun s => Some (x, set_floats (put x v (floats s)) s).

(** [x = v] through the address [x]. *)
Definition store (x : string) (v : spec_float) : M unit :=
  fun s =>
    match assoc x (floats s) with
    | None => None
    | Some _ => Some (tt, set_floats (put x v (floats s)) s)
    end.

(** [TFile::Open(fname, option)].  [RECREATE] creates the file anew,
    replacing an older one, and makes it the current directory.  The
    other modes are not used by the macro and are not modelled. *)
Definition TFile_Open (fname option : string) : M string :=
  if String.eqb option "RECREATE" then
    write_file fname (RootFile []) ;;;
    fun s => Some (fname, set_gDirectory (Some fname)
                            (set_files (files s ++ [fname]) s))
  else fail.

(** [new TTree(name, title)]: the tree attaches itself to the current
    directory. *)
Definition new_TTree (name title : string) : M string :=
  fun s =>
    let t := {| t_title := title; t_directory := gDirectory s;
                t_branches := []; t_entries := [] |} in
    Some (name, set_trees (put name t (trees s)) s).

(** [t->Branch(bname, &x)] *)
Definition Branch (t bname x : string) : M unit :=
  fun s =>
    match assoc t (trees s), assoc x (floats s) with
    | Some tt', Some _ =>
        let t' := {| t_title := t_title tt'; t_directory := t_directory tt';
                     t_branches := t_branches tt' ++ [(bname, x)];
                     t_entries := t_entries tt' |} in
        Some (tt, set_trees (put t t' (trees s)) s)
    | _, _ => None
    end.

(** What the branches read at their addresses right now. *)
Definition snapshot (branches : list (string * string))
           (mem : list (string * spec_float)) : option entry :=
  mapM (fun b => option_map (pair (fst b)) (assoc (snd b) mem)) branches.

(** [t->Fill()]: one more entry, holding the current value of every
    branch address. *)
Definition Fill (t : string) : M unit :=
  fun s =>
    match assoc t (trees s) with
    | None => None
    | Some tt' =>
        match snapshot (t_branches tt') (floats s) with
        | None => None
        | Some e =>
            let t' := {| t_title := t_title tt'; t_directory := t_directory tt';
                         t_branches := t_branches tt';
                         t_entries := t_entries tt' ++ [e] |} in
            Some (tt, set_events (events s ++ [EvFill t])
                        (set_trees (put t t' (trees s)) s))
        end
    end.

(** [f->Write()]: stores every object the file owns. *)
Definition Write (f : string) : M unit :=
  fun s =>
    if existsb (String.eqb f) (files s) then
      write_file f (RootFile (filter (fun kt => owned_by f kt = true) (trees s))) s
    else None.

(** [f->Close()]: the file leaves the session together with the
    objects it owns. *)
Definition Close (f : string) : M unit :=
  fun s =>
    if existsb (String.eqb f) (files s) then
      let dir := match gDirectory s with
                 | Some d => if String.eqb d f then None else Some d
                 | None => None
                 end in
      Some (tt, set_gDirectory dir
                  (set_files (filter (fun g => g <> f) (files s))
                     (set_trees (filter (fun kt => owned_by f kt = false) (trees s)) s)))
    else None.

(** The [double] literal [z.] *)
Definition double_lit (z : Z) : spec_float := double_of_int z.

(** The macro [hist.C]. *)
Definition hist : M unit :=
  (* Make a hist, print to file *)
  h <- new_TH1F "h" "" 10 0 1 ;;
  FillRandom h "gaus" 10000 ;;;
  c <- new_TCanvas "c" "" 800 800 ;;
  Draw h ;;;
  SaveAs c "hist.pdf" ;;;
  (* Save stuff to a TTree in a TFile *)
  pt <- new_float "pt" (float_of_double (double_lit 0)) ;;
  eta <- new_float "eta" (float_of_double (double_lit 0)) ;;
  f <- TFile_Open "simple_tree.root" "RECREATE" ;;
  t <- new_TTree "tree" "Simple TTree" ;;
  Branch t "pt" pt ;;;
  Branch t "eta" eta ;;;
  for_range 0 100 (fun i =>
    r <- Rndm 1 ;;
    store pt (float_of_double (dmul r (double_of_int 150))) ;;;
    r' <- Rndm 1 ;;
    store eta (float_of_double (dsub (dmul r' (double_lit 10)) (double_lit 5))) ;;;
    Fill t) ;;;
  (Write f ;;;
   Close f).

(** Running the macro in a fresh session whose current directory is
    [dir], on a disk [d]. *)
Definition run (dir : string) (d : gmap string FileData) : option Session :=
  option_map snd (hist (start dir d)).
End Calls.

End Root.

(* ===================================================================== *)
(** * Part II  The job execution core                                     *)
(* ===================================================================== *)

(** Modelled from the spec: the repository's sources hold the two example
    payloads only; the execution core (job descriptor, toolchain adapters,
    orchestrator [runJob], artifact validator, result reporter) is missing
    from them and follows sections 3 and 4 of the specification.  The
    external compiler, the interpreter runtime and the processes they
    start are injected capabilities, as section 9 asks. *)
Module Core.
Import Root.

Inductive JobKind := NativeCompiled | InterpretedScript.
Inductive ArtifactKind := TextLog | BinaryDocument | StructuredDataFile.

Record ExpectedArtifact := {
    relPath : string;
    artifactKind : ArtifactKind
  }.

Record JobDescriptor := {
    kind : JobKind;
    sourcePath : string;
    workingDirectory : string;
    expectedArtifacts : list ExpectedArtifact
  }.

Inductive PrepareFailure := CompileError (diagnostic : string) | RuntimeUnavailable.
Inductive RunFailure := Timeout | ArtifactEscapedSandbox | ProcessCrashed.

Inductive RunStatus :=
  | NotRun
  | Exited (code : Z)
  | Aborted (why : RunFailure).

Record ExecutionResult := {
    prepareStatus : option PrepareFailure;   (* [None]: prepare succeeded *)
    runStatus : RunStatus;
    capturedOutput : string
  }.

Record ArtifactCheck := {
    present : bool;
    sizeBytes : N;
    structurallyValid : bool
  }.

Inductive Outcome :=
  | Passed | PrepareFailed | RunFailed | ArtifactMissing | ArtifactInvalid.

Record Verdict := {
    outcome : Outcome;
    detail : string;
    artifactChecks : list ArtifactCheck
  }.

Inductive EnvironmentError := WorkingDirectoryUnavailable.

(** ** Injected capabilities *)

Inductive Termination := Returned (code : Z) | Crashed.

(** What the platform observes of a finished (or killed) process. *)
Record ProcessOutcome := {
    termination : Termination;
    output : string;
    elapsed : nat;                (* time it ran, in ticks *)
    written : list string         (* files it wrote, as the platform saw them *)
  }.

Abbreviation Disk := (gmap string FileData).

Record Toolchain := {
    (** compiler: source, path of the executable to produce *)
    compile : string -> string -> Disk -> (Z * string) * Disk;
    (** starts an executable, without arguments, in a current directory *)
    runExecutable : string -> string -> Disk -> ProcessOutcome * Disk;
    interpreterAvailable : bool;
    (** interpreter: script, current directory *)
    interpret : string -> string -> Disk -> ProcessOutcome * Disk
  }.

Record Config := {
    toolchain : Toolchain;
    timeBudget : nat;
    outputLimit : nat;
    (** whether the platform lets the core create a directory *)
    canCreate : string -> bool;
    (** byte length of the encoded body of a document or container *)
    bodySize : FileData -> N
  }.

(** ** Toolchain adapters *)

Inductive PrepareResult :=
  | Prepared (executable : option string)
  | NotPrepared (why : PrepareFailure).

Record Adapter := {
    prepare : JobDescriptor -> Disk -> PrepareResult * Disk;
    execute : JobDescriptor -> option string -> Disk -> option (ProcessOutcome * Disk)
  }.

Definition executablePath (d : JobDescriptor) : string :=
  workingDirectory d ++ "/job.exe".

Definition nativeAdapter (tc : Toolchain) : Adapter :=
  {| prepare := fun d w =>
       let '((code, diagnostic), w') := compile tc (sourcePath d) (executablePath d) w in
       if Z.eqb code 0 && bool_decide (is_Some (w' !! executablePath d))
       then (Prepared (Some (executablePath d)), w')
       else (NotPrepared (CompileError diagnostic), w');
     execute := fun d exe w =>
       match exe with
       | Some x => Some (runExecutable tc x (workingDirectory d) w)
       | None => None
       end |}.

Definition interpretedAdapter (tc : Toolchain) : Adapter :=
  {| prepare := fun d w =>
       if interpreterAvailable tc then (Prepared None, w)
       else (NotPrepared RuntimeUnavailable, w);
     execute := fun d _ w =>
       Some (interpret tc (sourcePath d) (workingDirectory d) w) |}.

Definition adapterFor (tc : Toolchain) (k : JobKind) : Adapter :=
  match k with
  | NativeCompiled => nativeAdapter tc
  | InterpretedScript => interpretedAdapter tc
  end.

(** ** Artifact validator *)

(** The first four bytes of a file. *)
Definition signature (f : FileData) : string :=
  match f with
  | PdfDocument _ => "%PDF"
  | RootFile _ => "root"
  | OtherFile bytes => String.substring 0 4 bytes
  end.

Definition fileSize (cfg : Config) (f : FileData) : N :=
  match f with
  | OtherFile bytes => N.of_nat (String.length bytes)
  | _ => 4 + bodySize cfg f
  end.

Fixpoint is_text (bytes : string) : bool :=
  match bytes with
  | EmptyString => true
  | String c rest => (nat_of_ascii c <? 128)%nat && is_text rest
  end.

(** A tree is consistent when it has rows and every row has one value
    per branch. *)
Definition consistentTree (kt : string * TTree) : bool :=
  let t := snd kt in
  negb (Nat.eqb (List.length (t_entries t)) 0)
  && forallb (fun e => Nat.eqb (List.length e) (List.length (t_branches t)))
             (t_entries t).

Definition probe (k : ArtifactKind) (f : FileData) : bool :=
  match k with
  | TextLog => match f with OtherFile bytes => is_text bytes | _ => false end
  | BinaryDocument => String.eqb (signature f) "%PDF"
  | StructuredDataFile =>
      match f with
      | RootFile keys =>
          negb (Nat.eqb (List.length keys) 0) && forallb consistentTree keys
      | _ => false
      end
  end.

Definition checkArtifact (cfg : Config) (wd : string) (w : Disk)
           (a : ExpectedArtifact) : ArtifactCheck :=
  match w !! (wd ++ "/" ++ relPath a) with
  | None => {| present := false; sizeBytes := 0; structurallyValid := false |}
  | Some f =>
      {| present := true; sizeBytes := fileSize cfg f;
         structurallyValid := (0 <? fileSize cfg f)%N && probe (artifactKind a) f |}
  end.

(** Every declared artifact is checked, whatever the earlier ones gave. *)
Definition validate (cfg : Config) (wd : string) (w : Disk)
           (expected : list ExpectedArtifact) : list ArtifactCheck :=
  map (checkArtifact cfg wd w) expected.

(** ** Orchestrator *)

Inductive Call := CallPrepare | CallExecute | CallValidate.

(** The machine the core runs on: its disk, and the calls the core has
    made so far. *)
Record Machine := {
    m_disk : Disk;
    m_journal : list Call
  }.

(** No file lies below the directory yet. *)
Definition emptyDirectory (wd : string) (w : Disk) : Prop :=
  map_Forall (fun p _ => Path.strip_prefix (wd ++ "/") p = None) w.

Definition workdirReady (cfg : Config) (d : JobDescriptor) (w : Disk) : bool :=
  canCreate cfg (workingDirectory d)
  && bool_decide (emptyDirectory (workingDirectory d) w).

Definition truncate (limit : nat) (s : string) : string :=
  String.substring 0 limit s.

Definition escaped (wd : string) (paths : list string) : bool :=
  existsb (fun p => negb (Path.inside wd p)) paths.

Definition runJob (cfg : Config) (d : JobDescriptor) (m : Machine)
  : (EnvironmentError + ExecutionResult * list ArtifactCheck) * Machine :=
  let wd := workingDirectory d in
  (* (1) the working directory *)
  if negb (workdirReady cfg d (m_disk m)) then (inl WorkingDirectoryUnavailable, m)
  else
    (* (2) the adapter *)
    let adapter := adapterFor (toolchain cfg) (kind d) in
    (* (3) prepare *)
    let '(pr, w1) := prepare adapter d (m_disk m) in
    let j1 := (m_journal m ++ [CallPrepare])%list in
    match pr with
    | NotPrepared why =>
        let diagnostic := match why with
                          | CompileError text => text
                          | RuntimeUnavailable => "interpreter runtime unavailable"
                          end in
        (inr ({| prepareStatus := Some why; runStatus := NotRun;
                 capturedOutput := truncate (outputLimit cfg) diagnostic |}, []),
         {| m_disk := w1; m_journal := j1 |})
    | Prepared exe =>
        (* (4) execute, under the time budget *)
        let j2 := (j1 ++ [CallExecute])%list in
        match execute adapter d exe w1 with
        | None =>
            (inr ({| prepareStatus := None; runStatus := Aborted ProcessCrashed;
                     capturedOutput := EmptyString |}, []),
             {| m_disk := w1; m_journal := j2 |})
        | Some (po, w2) =>
            let out := truncate (outputLimit cfg) (output po) in
            if (timeBudget cfg <? elapsed po)%nat then
              (inr ({| prepareStatus := None; runStatus := Aborted Timeout;
                       capturedOutput := out |}, []),
               {| m_disk := w2; m_journal := j2 |})
            else
              (* (5) validate, whatever the exit code *)
              let status :=
                if escaped wd (written po) then Aborted ArtifactEscapedSandbox
                else match termination po with
                     | Returned code => Exited code
                     | Crashed => Aborted ProcessCrashed
                     end in
              (inr ({| prepareStatus := None; runStatus := status;
                       capturedOutput := out |},
                    validate cfg wd w2 (expectedArtifacts d)),
               {| m_disk := w2; m_journal := (j2 ++ [CallValidate])%list |})
        end
    end.

(** ** Result reporter *)

Definition artifactOk (c : ArtifactCheck) : bool :=
  present c && structurallyValid c.

Definition artifactOutcome (checks : list ArtifactCheck) : Outcome :=
  if forallb artifactOk checks then Passed
  else if existsb (fun c => negb (present c)) checks then ArtifactMissing
  else ArtifactInvalid.

Definition report (r : ExecutionResult) (checks : list ArtifactCheck) : Verdict :=
  match prepareStatus r with
  | Some (CompileError text) =>
      {| outcome := PrepareFailed; detail := "compile error: " ++ text;
         artifactChecks := checks |}
  | Some RuntimeUnavailable =>
      {| outcome := PrepareFailed; detail := "runtime unavailable";
         artifactChecks := checks |}
  | None =>
      match runStatus r with
      | Aborted Timeout =>
          {| outcome := RunFailed; detail := "timeout"; artifactChecks := checks |}
      | Aborted ArtifactEscapedSandbox =>
          {| outcome := RunFailed; detail := "artifact escaped sandbox";
             artifactChecks := checks |}
      | Aborted ProcessCrashed =>
          {| outcome := RunFailed; detail := "process crashed";
             artifactChecks := checks |}
      | NotRun =>
          {| outcome := RunFailed; detail := "not run"; artifactChecks := checks |}
      | Exited _ =>
          {| outcome := artifactOutcome checks; detail := capturedOutput r;
             artifactChecks := checks |}
      end
  end.

(** One job, from descriptor to verdict. *)
Definition verdictOf (cfg : Config) (d : JobDescriptor) (m : Machine)
  : option Verdict :=
  match fst (runJob cfg d m) with
  | inl _ => None
  | inr (r, checks) => Some (report r checks)
  end.

End Core.

(* ===================================================================== *)
(** * Part II.b  The example jobs as processes                            *)
(* ===================================================================== *)

(** How the two examples appear to the execution core: the process the
    compiled [showsize] makes (the embedded [main]), the process the
    interpreter makes on [hist.C] (the embedded macro), and a toolchain
    whose compiler accepts [showsize.c]. *)
Module Fixtures.
Import Libc Root Core.

(** The files a session wrote, in order. *)
Definition targets (evs : list Event) : list string :=
  omap (fun e => match e with EvWrite _ target => Some target | _ => None end) evs.

Definition is_fill (e : Event) : bool :=
  match e with EvFill _ => true | _ => false end.

(** How many times the session filled a tree. *)
Definition fills (evs : list Event) : nat :=
  List.length (List.filter is_fill evs).

(** Rows stored in a file. *)
Definition records (f : FileData) : list entry :=
  match f with
  | RootFile keys => concat (map (fun kt => t_entries (snd kt)) keys)
  | _ => []
  end.


Section Processes.
Context {limits : Limits}.
(** The generator's sequence during the run, and how long the job's
    process runs. *)
Variable gRandom : N -> spec_float.
Variable ticks : nat.

(** The executable of [showsize.c], started without arguments. *)
Definition showsize_process (exe cwd : string) (w : Disk)
  : ProcessOutcome * Disk :=
  match Showsize.run 1 [exe] with
  | Some (status, out) =>
      ({| termination := Returned status; output := out;
          elapsed := ticks; written := [] |}, w)
  | None =>
      ({| termination := Crashed; output := EmptyString;
          elapsed := ticks; written := [] |}, w)
  end.

(** The interpreter on [hist.C]. *)
Definition root_process (script cwd : string) (w : Disk)
  : ProcessOutcome * Disk :=
  match Root.run gRandom cwd w with
  | Some s =>
      ({| termination := Returned 0; output := EmptyString;
          elapsed := ticks; written := targets (events s) |}, disk s)
  | None =>
      ({| termination := Crashed; output := EmptyString;
          elapsed := ticks; written := [] |}, w)
  end.

(** Modelled from the spec: the native compiler is an external
    collaborator (section 6), given a source path and an output path.
    This one accepts the source: exit code 0, no diagnostics, an
    executable at the requested place. *)
Definition cc (src out : string) (w : Disk) : (Z * string) * Disk :=
  ((0, EmptyString), <[out := OtherFile "ELF"]> w).

Definition fixtureToolchain (available : bool) : Toolchain :=
  {| compile := cc; runExecutable := showsize_process;
     interpreterAvailable := available; interpret := root_process |}.

Definition fixtureConfig (available : bool) (budget limit : nat)
           (creatable : string -> bool) (body : FileData -> N) : Config :=
  {| toolchain := fixtureToolchain available; timeBudget := budget;
     outputLimit := limit; canCreate := creatable; bodySize := body |}.
End Processes.

End Fixtures.

(* ===================================================================== *)
(** * Part II.c  Vocabulary of the statements                             *)
(* ===================================================================== *)

(** ** Text *)

(** No line feed occurs in [s]. *)
Fixpoint no_LF (s : string) : bool :=
  match s with
  | EmptyString => true
  | String c rest => negb (Ascii.eqb c LF) && no_LF rest
  end.

(** What [showsize] is expected to print. *)
Definition expected_output {limits : Libc.Limits} : string :=
  "Hi" ++ nl ++
  "Max int = " ++ Libc.dec_signed Libc.INT_MAX ++ nl ++
  "Max unsigned long long = " ++ Libc.dec_unsigned Libc.ULLONG_MAX ++ nl.

(** A decimal numeral that makes up a whole string, read as C's
    [strtol] and [strtoull] read it in base 10. *)
Definition read_signed (s : string) : option Z :=
  option_map Z.of_int (NilZero.int_of_string s).

Definition read_unsigned (s : string) : option Z :=
  option_map (fun u => Z.of_N (N.of_uint u)) (NilZero.uint_of_string s).

(** Joining lines: each one is followed by a line feed. *)
Fixpoint unlines (ls : list string) : string :=
  match ls with
  | [] => EmptyString
  | l :: ls' => l ++ nl ++ unlines ls'
  end.

(** ** Magnitudes of floating-point numbers *)

(** The record reached after shifting [m] right by [k] bits. *)
Definition shifted (m k : Z) (mrs : shr_record) : Prop :=
  shr_m mrs = m / 2 ^ k /\
  (m mod 2 ^ k = 0 -> shr_r mrs = false /\ shr_s mrs = false).

(** The same shift with its two rounding bits.  Let [t] be twice the
    remainder [m mod 2^k], less [2^k] when [shr_r] is set: [shr_r] is the
    last bit shifted out exactly when [0 <= t < 2^k], and the sticky bit
    [shr_s] is clear exactly when [t] is zero. *)
Definition shifted_bits (m k : Z) (mrs : shr_record) : Prop :=
  shr_m mrs = m / 2 ^ k /\
  let t := 2 * (m mod 2 ^ k) - (if shr_r mrs then 2 ^ k else 0) in
  0 <= t < 2 ^ k /\ (shr_s mrs = false <-> t = 0).

(** [b * 2^eb] is a magnitude the format can hold. *)
Definition representable (prec emax : Z) (b eb : Z) : Prop :=
  0 <= b < 2 ^ prec /\ emin prec emax <= eb <= emax - prec.

(** [m * 2^e <= b * 2^eb], at exponents [e <= eb]. *)
Definition mag_le (m e b eb : Z) : Prop :=
  e <= eb /\ m <= b * 2 ^ (eb - e).

(** [x] is finite, with [|x| <= b * 2^eb]. *)
Definition bounded_by (b eb : Z) (x : spec_float) : Prop :=
  match x with
  | S754_zero _ => True
  | S754_finite _ m e => mag_le (Zpos m) e b eb
  | _ => False
  end.

(** [x] is finite, with the sign bit [s]. *)
Definition has_sign (s : bool) (x : spec_float) : Prop :=
  match x with
  | S754_zero s' | S754_finite s' _ _ => s' = s
  | _ => False
  end.

(** [x] is a zero or a positive finite number. *)
Definition nonneg (x : spec_float) : Prop :=
  match x with
  | S754_zero _ => True
  | S754_finite s _ _ => s = false
  | _ => False
  end.

(** ** The run of [hist.C] *)

Module HistRun.
Import IEEE Root.

(** The two assignments of the loop body, as functions of the number
    drawn. *)
Definition pt_of (r : spec_float) : spec_float :=
  float_of_double (dmul r (double_of_int 150)).

Definition eta_of (r : spec_float) : spec_float :=
  float_of_double (dsub (dmul r (double_lit 10)) (double_lit 5)).

(** The entry filled by an iteration that starts at draw [nd]. *)
Definition row (gRandom : N -> spec_float) (nd : N) : entry :=
  [("pt", pt_of (gRandom nd)); ("eta", eta_of (gRandom (N.succ nd)))].

(** The entries of [n] iterations, the first starting at draw [nd]. *)
Fixpoint rows (gRandom : N -> spec_float) (nd : N) (n : nat) : list entry :=
  match n with
  | O => []
  | S k => row gRandom nd :: rows gRandom (N.succ (N.succ nd)) k
  end.

(** The two locals after these iterations. *)
Fixpoint floats_after (gRandom : N -> spec_float) (nd : N) (n : nat)
         (cur : list (string * spec_float)) : list (string * spec_float) :=
  match n with
  | O => cur
  | S k => floats_after gRandom (N.succ (N.succ nd)) k (row gRandom nd)
  end.

(** The objects of the macro. *)
Definition the_tree (es : list entry) : TTree :=
  {| t_title := "Simple TTree"; t_directory := Some "simple_tree.root";
     t_branches := [("pt", "pt"); ("eta", "eta")]; t_entries := es |}.

Definition the_hist : TH1F :=
  {| h_title := ""; h_nbinsx := 10; h_xlow := 0; h_xup := 1;
     h_entries := 10000; h_sample_from := Some 0%N |}.

Definition the_canvas : TCanvas :=
  {| c_title := ""; c_ww := 800; c_wh := 800; c_primitives := ["h"] |}.

(** The body of the [for] loop, once [pt], [eta] and [t] are bound. *)
Definition loop_body (gRandom : N -> spec_float) (i : Z) : M unit :=
  bind (Rndm gRandom 1) (fun r =>
  bind (store "pt" (float_of_double (dmul r (double_of_int 150)))) (fun _ =>
  bind (Rndm gRandom 1) (fun r' =>
  bind (store "eta"
          (float_of_double (dsub (dmul r' (double_lit 10)) (double_lit 5)))) (fun _ =>
  Fill "tree")))).

Definition pdf_path (dir : string) : string := Path.resolve dir "hist.pdf".
Definition root_path (dir : string) : string := Path.resolve dir "simple_tree.root".

(** The session the macro ends in. *)
Definition final (gRandom : N -> spec_float) (dir : string)
           (d : gmap string FileData) : Session :=
  {| cwd := dir;
     hists := [("h", the_hist)];
     pads := [("c", the_canvas)];
     gPad := Some "c";
     trees := [];
     files := [];
     gDirectory := None;
     floats := floats_after gRandom 10000 100
                 [("pt", S754_zero false); ("eta", S754_zero false)];
     ndraws := 10200%N;
     disk := <[root_path dir := RootFile [("tree", the_tree (rows gRandom 10000 100))]]>
             (<[root_path dir := RootFile []]>
              (<[pdf_path dir := PdfDocument [("h", the_hist)]]> d));
     events := [EvWrite "hist.pdf" (pdf_path dir);
                EvWrite "simple_tree.root" (root_path dir)]
               ++ repeat (EvFill "tree") 100
               ++ [EvWrite "simple_tree.root" (root_path dir)] |}.

(** A write that names its file relatively, without climbing, and ends
    inside the directory [dir]. *)
Definition stays_inside (dir : string) (e : Event) : Prop :=
  match e with
  | EvWrite name target =>
      Path.is_relative name = true /\ Path.climbs name = false /\
      target = Path.resolve dir name /\ Path.inside dir target = true
  | EvFill _ => True
  end.
End HistRun.

(** ** Runs of a job *)

Module JobRun.
Import Root Core.

(** The prepare step of [runJob] is reached, and fails. *)
Definition prepareFails (cfg : Config) (d : JobDescriptor) (m : Machine) : Prop :=
  workdirReady cfg d (m_disk m) = true /\
  exists why : PrepareFailure,
    fst (prepare (adapterFor (toolchain cfg) (kind d)) d (m_disk m))
    = NotPrepared why.

(** Two configurations that differ at most in what the started
    processes do. *)
Definition samePreparation (cfg cfg' : Config) : Prop :=
  compile (toolchain cfg) = compile (toolchain cfg') /\
  interpreterAvailable (toolchain cfg) = interpreterAvailable (toolchain cfg') /\
  timeBudget cfg = timeBudget cfg' /\
  outputLimit cfg = outputLimit cfg' /\
  canCreate cfg = canCreate cfg' /\
  bodySize cfg = bodySize cfg'.








End JobRun.

(** ** Example inputs *)

Module Examples.
Import Root Core.

(** The number 1/2, and the largest [double] below 1. *)
Definition half : spec_float := S754_finite false 4503599627370496 (-53).
Definition below_one : spec_float := S754_finite false 9007199254740991 (-53).

(** A generator stuck at 1/2, and one that alternates between 0 and 1. *)
Definition steady (n : N) : spec_float := half.


(** A sequence that differs from [steady] in the first 10000 numbers
    only. *)
Definition quiet_start (n : N) : spec_float :=
  if (n <? 10000)%N then S754_zero false else half.

Definition emptyMachine : Machine := {| m_disk := ∅; m_journal := [] |}.

(** An LP64 platform, processes that take one tick, a budget of ten. *)
Definition exampleConfig (gRandom : N -> spec_float) (available : bool) : Config :=
  @Fixtures.fixtureConfig Libc.lp64 gRandom 1 available 10 4096
                          (fun _ => true) (fun _ => 0%N).

(** The same platform, with processes that take [ticks] ticks. *)
Definition slowConfig (ticks : nat) : Config :=
  @Fixtures.fixtureConfig Libc.lp64 steady ticks true 10 4096
                          (fun _ => true) (fun _ => 0%N).

Definition scriptJob (wd : string) : JobDescriptor :=
  {| kind := InterpretedScript; sourcePath := "hist.C"; workingDirectory := wd;
     expectedArtifacts :=
       [ {| relPath := "hist.pdf"; artifactKind := BinaryDocument |};
         {| relPath := "simple_tree.root"; artifactKind := StructuredDataFile |} ] |}.

Definition nativeJob (wd : string) : JobDescriptor :=
  {| kind := NativeCompiled; sourcePath := "showsize.c"; workingDirectory := wd;
     expectedArtifacts := [] |}.
End Examples.

(* ===================================================================== *)
(** * Part III  Properties                                                *)
(* ===================================================================== *)

(** ** III.a  Text, and the output of [showsize] *)

Lemma append_cons (c : ascii) (s t : string) : String c s ++ t = String c (s ++ t).
Proof. reflexivity. Qed.

Lemma append_nil_l (t : string) : EmptyString ++ t = t.
Proof. reflexivity. Qed.

Lemma append_assoc (s t u : string) : (s ++ t) ++ u = s ++ (t ++ u).
Proof.
  induction s as [|c s IH]; [reflexivity|].
  rewrite !append_cons, IH. reflexivity.
Qed.

Lemma nl_append (s : string) : nl ++ s = String LF s.
Proof. reflexivity. Qed.

Lemma no_LF_app (s t : string) :
  no_LF s = true -> no_LF t = true -> no_LF (s ++ t) = true.
Proof.
  induction s as [|c s IH]; [auto|].
  rewrite append_cons. cbn [no_LF].
  intros H Ht. apply andb_true_iff in H as [Hc Hs].
  rewrite Hc, (IH Hs Ht). reflexivity.
Qed.

Lemma uint_no_LF (u : Decimal.uint) : no_LF (NilEmpty.string_of_uint u) = true.
Proof.
  induction u; cbn [NilEmpty.string_of_uint no_LF]; try rewrite IHu; reflexivity.
Qed.

Lemma dec_unsigned_no_LF (v : Z) : no_LF (Libc.dec_unsigned v) = true.
Proof.
  unfold Libc.dec_unsigned, NilZero.string_of_uint.
  destruct (N.to_uint (Z.to_N v)); try reflexivity; apply uint_no_LF.
Qed.

Lemma dec_signed_no_LF (v : Z) : no_LF (Libc.dec_signed v) = true.
Proof.
  unfold Libc.dec_signed, NilZero.string_of_int, NilZero.string_of_uint.
  destruct (Z.to_int v) as [u|u]; destruct u; try reflexivity;
    cbn [no_LF]; try apply uint_no_LF.
  all: rewrite uint_no_LF; reflexivity.
Qed.

(** A piece without line feed, followed by a line feed, is one line. *)
Lemma lines_from_line (s cur rest : string) :
  no_LF s = true ->
  Libc.lines_from cur (s ++ String LF rest)
  = (cur ++ s) :: Libc.lines_from EmptyString rest.
Proof.
  revert cur. induction s as [|c s IH]; intros cur H.
  - rewrite append_nil_l. cbn [Libc.lines_from]. rewrite Ascii.eqb_refl. f_equal.
    induction cur as [|a cur IHc]; [reflexivity|].
    rewrite append_cons. congruence.
  - rewrite append_cons. cbn [Libc.lines_from].
    cbn [no_LF] in H. apply andb_true_iff in H as [Hc Hs].
    apply negb_true_iff in Hc. rewrite Hc, (IH _ Hs).
    f_equal. rewrite append_assoc. reflexivity.
Qed.

Lemma format_hi : Libc.format ("Hi" ++ nl) [] = Some ("Hi" ++ nl).
Proof. reflexivity. Qed.

Lemma format_int (v : Z) :
  Libc.format ("Max int = %d" ++ nl) [Libc.VInt v]
  = Some ("Max int = " ++ Libc.dec_signed v ++ nl).
Proof. reflexivity. Qed.

Lemma format_ull (v : Z) :
  Libc.format ("Max unsigned long long = %llu" ++ nl) [Libc.VULongLong v]
  = Some ("Max unsigned long long = " ++ Libc.dec_unsigned v ++ nl).
Proof. reflexivity. Qed.

(** The program terminates normally, whatever its arguments and the
    platform's limits, with status 0 and the expected text. *)
Lemma run_main (limits : Libc.Limits) (arg : Z) (argv : list string) :
  Showsize.run arg argv = Some (0, expected_output).
Proof.
  unfold Showsize.run, Showsize.main, Libc.bind, Libc.printf, Libc.ret.
  rewrite format_hi, format_int, format_ull. cbn [Libc.stdout].
  unfold expected_output. rewrite !append_assoc. reflexivity.
Qed.

Lemma lines_expected_output (limits : Libc.Limits) :
  Libc.lines expected_output =
    ["Hi"; "Max int = " ++ Libc.dec_signed Libc.INT_MAX;
     "Max unsigned long long = " ++ Libc.dec_unsigned Libc.ULLONG_MAX].
Proof.
  unfold Libc.lines, expected_output. rewrite !nl_append. unfold nl.
  rewrite (lines_from_line "Hi") by reflexivity.
  rewrite <- (append_assoc "Max int = ").
  rewrite lines_from_line by (apply no_LF_app; [reflexivity | apply dec_signed_no_LF]).
  rewrite <- (append_assoc "Max unsigned long long = ").
  rewrite lines_from_line by (apply no_LF_app; [reflexivity | apply dec_unsigned_no_LF]).
  reflexivity.
Qed.

(** C1, as the specification words it, fails: on an LP64 platform the
    program, started as [./showsize], prints a text whose number of lines
    is not two. *)
Lemma showsize_not_two_lines :
  exists out : string,
    @Showsize.run Libc.lp64 1 ["./showsize"] = Some (0, out) /\
    List.length (Libc.lines out) <> 2%nat.
Proof.
  exists (@expected_output Libc.lp64). split; [apply run_main|].
  rewrite lines_expected_output. cbn. lia.
Qed.

(** C1 (amended): on every invocation the program prints to standard
    output a greeting line followed by one line for each of the two
    integer limits, carrying the limit in decimal; the captured output is
    non-empty and has exactly three lines. *)
Theorem showsize_three_lines (limits : Libc.Limits) (arg : Z) (argv : list string) :
  exists out : string,
    Showsize.run arg argv = Some (0, out) /\
    out <> EmptyString /\
    Libc.lines out =
      ["Hi"; "Max int = " ++ Libc.dec_signed Libc.INT_MAX;
       "Max unsigned long long = " ++ Libc.dec_unsigned Libc.ULLONG_MAX] /\
    List.length (Libc.lines out) = 3%nat.
Proof.
  exists expected_output. split; [apply run_main|].
  split; [discriminate|]. rewrite lines_expected_output. split; reflexivity.
Qed.

(** C8: output bytes and exit status do not depend on the command-line
    arguments: any two invocations terminate and agree on both. *)
Theorem showsize_ignores_arguments (limits : Libc.Limits)
        (arg1 arg2 : Z) (argv1 argv2 : list string) :
  Showsize.run arg1 argv1 = Showsize.run arg2 argv2 /\
  is_Some (Showsize.run arg1 argv1) /\ is_Some (Showsize.run arg2 argv2).
Proof.
  rewrite !run_main. repeat split; try reflexivity; eexists; reflexivity.
Qed.

(** ** III.b  Rounding keeps a representable bound *)

(** The operations of [SpecFloat] round the exact result to the format.
    Rounding to nearest never crosses a number of the format, so a bound
    that the format can hold survives every operation.  The lemmas below
    establish this for the functions the macro uses, from the definitions
    of [SpecFloat] alone. *)

Import IEEE.

Lemma digits2_pos_bounds (p : positive) :
  2 ^ (Zpos (digits2_pos p) - 1) <= Zpos p < 2 ^ Zpos (digits2_pos p).
Proof.
  induction p as [p IH | p IH |]; cbn [digits2_pos].
  - rewrite Pos2Z.inj_succ, Z.pow_succ_r by lia.
    replace (Z.succ (Zpos (digits2_pos p)) - 1) with (Z.succ (Zpos (digits2_pos p) - 1)) by lia.
    rewrite Z.pow_succ_r by lia. lia.
  - rewrite Pos2Z.inj_succ, Z.pow_succ_r by lia.
    replace (Z.succ (Zpos (digits2_pos p)) - 1) with (Z.succ (Zpos (digits2_pos p) - 1)) by lia.
    rewrite Z.pow_succ_r by lia. lia.
  - cbn. lia.
Qed.

Lemma Zdigits2_bounds (m : Z) :
  0 <= m -> 0 <= Zdigits2 m /\ (0 < m -> 2 ^ (Zdigits2 m - 1) <= m).
Proof.
  destruct m as [|p|p]; cbn [Zdigits2]; try lia.
  intros _. split; [lia|]. intros _. apply digits2_pos_bounds.
Qed.

Lemma shr_1_spec (mrs : shr_record) :
  0 <= shr_m mrs ->
  shr_m (shr_1 mrs) = shr_m mrs / 2 /\
  shr_r (shr_1 mrs) = Z.odd (shr_m mrs) /\
  shr_s (shr_1 mrs) = shr_r mrs || shr_s mrs.
Proof.
  destruct mrs as [m r s]. cbn [shr_m shr_r shr_s]. intros Hm.
  rewrite <- Z.div2_div.
  destruct m as [|[p|p|]|p]; try lia; cbn; auto.
Qed.

Lemma shifted_step (m k : Z) (mrs : shr_record) :
  0 <= m -> 0 <= k -> shifted m k mrs -> shifted m (k + 1) (shr_1 mrs).
Proof.
  intros Hm Hk [Hq Hex].
  assert (Hpos : 0 < 2 ^ k) by (apply Z.pow_pos_nonneg; lia).
  assert (Hq0 : 0 <= shr_m mrs) by (rewrite Hq; apply Z.div_pos; lia).
  destruct (shr_1_spec mrs Hq0) as (Hm1 & Hr1 & Hs1).
  assert (Hpow : 2 ^ (k + 1) = 2 ^ k * 2) by (rewrite Z.pow_add_r by lia; lia).
  split.
  - rewrite Hm1, Hq, Hpow, Z.div_div by lia. reflexivity.
  - intros Hmod. rewrite Hpow in Hmod.
    apply Z.mod_divide in Hmod; [|lia]. destruct Hmod as [c Hc].
    assert (Hk0 : m mod 2 ^ k = 0).
    { apply Z.mod_divide; [lia|]. exists (c * 2). lia. }
    destruct (Hex Hk0) as [Hr Hs].
    rewrite Hr1, Hs1, Hr, Hs, Hq. split; [|reflexivity].
    replace m with (c * 2 * 2 ^ k) by lia.
    rewrite Z.div_mul by lia. rewrite Z.mul_comm, Z.odd_mul. reflexivity.
Qed.

Lemma shifted_iter (m : Z) (p : positive) :
  0 <= m ->
  forall k mrs, 0 <= k -> shifted m k mrs ->
                shifted m (k + Zpos p) (SpecFloat.iter_pos shr_1 p mrs).
Proof.
  intros Hm. induction p as [p IH | p IH |]; intros k mrs Hk Hs; cbn [SpecFloat.iter_pos].
  - replace (k + Zpos p~1) with (k + 1 + Zpos p + Zpos p) by lia.
    apply IH; [lia|]. apply IH; [lia|]. apply shifted_step; assumption.
  - replace (k + Zpos p~0) with (k + Zpos p + Zpos p) by lia.
    apply IH; [lia|]. apply IH; assumption.
  - apply shifted_step; assumption.
Qed.

Lemma shr_exact_spec (m e n : Z) :
  0 <= m ->
  let '(mrs, e') := shr (Build_shr_record m false false) e n in
  e' = e + Z.max 0 n /\ shifted m (Z.max 0 n) mrs.
Proof.
  intros Hm. unfold shr.
  assert (H0 : shifted m 0 (Build_shr_record m false false)).
  { split; cbn; [rewrite Z.div_1_r; reflexivity | auto]. }
  destruct n as [|p|p].
  - split; [lia | exact H0].
  - split; [lia|]. rewrite Z.max_r by lia.
    apply (shifted_iter m p Hm 0 _ (Z.le_refl 0) H0).
  - split; [lia | exact H0].
Qed.

Lemma round_nearest_even_bounds (q : Z) (mrs : shr_record) :
  shr_m mrs = q ->
  q <= round_nearest_even q (loc_of_shr_record mrs) <= q + 1 /\
  (shr_r mrs = false /\ shr_s mrs = false ->
   round_nearest_even q (loc_of_shr_record mrs) = q).
Proof.
  intros _. destruct mrs as [m [|] [|]]; cbn.
  - split; [lia|]. intros [? ?]; discriminate.
  - split; [destruct (Z.even q); lia|]. intros [? ?]; discriminate.
  - split; [lia|]. intros _; reflexivity.
  - split; [lia|]. intros _; reflexivity.
Qed.

Section Rounding.
Variables prec emax : Z.
Hypothesis prec_pos : 0 < prec.

Lemma fexp_le (m e b eb : Z) :
  0 <= m -> representable prec emax b eb -> mag_le m e b eb ->
  fexp prec emax (Zdigits2 m + e) <= eb.
Proof.
  intros Hm [[Hb0 Hb] [Hlo Hhi]] [He Hle].
  unfold fexp. apply Z.max_lub; [|exact Hlo].
  destruct (Zdigits2_bounds m Hm) as [Hd0 Hd].
  destruct (Z.eq_dec m 0) as [->|Hne]; [cbn; lia|].
  specialize (Hd ltac:(lia)).
  assert (Hp : 0 < 2 ^ (eb - e)) by (apply Z.pow_pos_nonneg; lia).
  assert (Hlt : 2 ^ (Zdigits2 m - 1) < 2 ^ (prec + (eb - e))).
  { rewrite Z.pow_add_r by lia. nia. }
  apply Z.pow_lt_mono_r_iff in Hlt; lia.
Qed.

Lemma shr_fexp_le (m e b eb : Z) :
  0 <= m -> representable prec emax b eb -> mag_le m e b eb ->
  let '(mrs, e') := shr_fexp prec emax m e loc_Exact in
  0 <= shr_m mrs /\
  mag_le (round_nearest_even (shr_m mrs) (loc_of_shr_record mrs)) e' b eb.
Proof.
  intros Hm Hrep Hmag.
  pose proof (fexp_le m e b eb Hm Hrep Hmag) as Hfe.
  destruct Hmag as [He Hle].
  unfold shr_fexp. cbn [shr_record_of_loc].
  set (n := fexp prec emax (Zdigits2 m + e) - e) in *.
  pose proof (shr_exact_spec m e n Hm) as Hshr.
  destruct (shr (Build_shr_record m false false) e n) as [mrs e'].
  destruct Hshr as [-> [Hq Hex]].
  set (k := Z.max 0 n) in *.
  assert (Hk : 0 <= k <= eb - e) by (unfold k, n; lia).
  assert (Hpk : 0 < 2 ^ k) by (apply Z.pow_pos_nonneg; lia).
  assert (Hq0 : 0 <= shr_m mrs) by (rewrite Hq; apply Z.div_pos; lia).
  split; [exact Hq0|].
  destruct (round_nearest_even_bounds (shr_m mrs) mrs eq_refl) as [Hr Hrex].
  split; [lia|].
  replace (eb - (e + k)) with (eb - e - k) by lia.
  set (c := b * 2 ^ (eb - e - k)).
  assert (Hc : b * 2 ^ (eb - e) = c * 2 ^ k).
  { unfold c. rewrite <- Z.mul_assoc, <- Z.pow_add_r by lia.
    f_equal. f_equal. lia. }
  rewrite Hc in Hle.
  assert (Hqc : shr_m mrs <= c).
  { rewrite Hq. apply Z.div_le_upper_bound; lia. }
  destruct (Z.eq_dec (shr_m mrs) c) as [Heq|Hne]; [|lia].
  assert (Hmod : m mod 2 ^ k = 0).
  { pose proof (Z.div_mod m (2 ^ k) ltac:(lia)) as Hdm.
    pose proof (Z.mod_pos_bound m (2 ^ k) Hpk). rewrite <- Hq, Heq in Hdm. lia. }
  rewrite (Hrex (Hex Hmod)). lia.
Qed.

Lemma binary_round_aux_bounded (sx : bool) (m e b eb : Z) :
  0 <= m -> representable prec emax b eb -> mag_le m e b eb ->
  bounded_by b eb (binary_round_aux prec emax sx m e loc_Exact) /\
  has_sign sx (binary_round_aux prec emax sx m e loc_Exact).
Proof.
  intros Hm Hrep Hmag. unfold binary_round_aux.
  pose proof (shr_fexp_le m e b eb Hm Hrep Hmag) as H1.
  destruct (shr_fexp prec emax m e loc_Exact) as [mrs1 e1].
  destruct H1 as [Hq1 Hmag1].
  set (mr := round_nearest_even (shr_m mrs1) (loc_of_shr_record mrs1)) in *.
  assert (Hmr : 0 <= mr).
  { destruct (round_nearest_even_bounds (shr_m mrs1) mrs1 eq_refl) as [? _].
    unfold mr. lia. }
  pose proof (shr_fexp_le mr e1 b eb Hmr Hrep Hmag1) as H2.
  destruct (shr_fexp prec emax mr e1 loc_Exact) as [mrs2 e2].
  destruct H2 as [Hq2 [He2 Hle2]].
  destruct (round_nearest_even_bounds (shr_m mrs2) mrs2 eq_refl) as [Hr2 _].
  destruct (shr_m mrs2) as [|p|p] eqn:Hs2; cbn; [auto | | lia].
  destruct Hrep as [_ [_ Hhi]].
  replace (Z.leb e2 (emax - prec)) with true by (symmetry; apply Z.leb_le; lia).
  cbn. split; [|reflexivity]. split; [exact He2 | lia].
Qed.
End Rounding.

Lemma iter_xO_pow (m d : positive) :
  Zpos (Pos.iter xO m d) = Zpos m * 2 ^ Zpos d.
Proof.
  induction d as [|d IH] using Pos.peano_ind.
  - cbn. lia.
  - rewrite Pos.iter_succ, Pos2Z.inj_succ, Z.pow_succ_r by lia.
    rewrite Pos2Z.inj_xO, IH. lia.
Qed.

Lemma shl_align_spec (m : positive) (e e' : Z) :
  let '(mz, ez) := shl_align m e e' in
  ez = Z.min e e' /\ Zpos mz = Zpos m * 2 ^ (e - ez).
Proof.
  unfold shl_align. destruct (e' - e) as [|d|d] eqn:Hd.
  - split; [lia|]. replace (e - e) with 0 by lia. lia.
  - split; [lia|]. replace (e - e) with 0 by lia. lia.
  - split; [lia|]. rewrite iter_xO_pow. f_equal. f_equal. lia.
Qed.

Section Operations.
Variables prec emax : Z.
Hypothesis prec_pos : 0 < prec.

Lemma mag_le_shl (m e ez b eb : Z) :
  ez <= e -> mag_le m e b eb -> mag_le (m * 2 ^ (e - ez)) ez b eb.
Proof.
  intros Hez [He Hle]. split; [lia|].
  replace (eb - ez) with ((eb - e) + (e - ez)) by lia.
  rewrite Z.pow_add_r by lia.
  assert (0 < 2 ^ (e - ez)) by (apply Z.pow_pos_nonneg; lia).
  nia.
Qed.

Lemma binary_round_bounded (sx : bool) (m : positive) (e b eb : Z) :
  representable prec emax b eb -> mag_le (Zpos m) e b eb ->
  bounded_by b eb (binary_round prec emax sx m e) /\
  has_sign sx (binary_round prec emax sx m e).
Proof.
  intros Hrep Hmag. unfold binary_round.
  pose proof (shl_align_spec m e (fexp prec emax (Zpos (digits2_pos m) + e))) as Hal.
  destruct (shl_align m e (fexp prec emax (Zpos (digits2_pos m) + e))) as [mz ez].
  destruct Hal as [Hez Hmz].
  apply binary_round_aux_bounded; [exact prec_pos | lia | exact Hrep |].
  rewrite Hmz. apply mag_le_shl; [lia | exact Hmag].
Qed.

Lemma binary_normalize_bounded (m e b eb : Z) (szero : bool) :
  representable prec emax b eb -> mag_le (Z.abs m) e b eb ->
  bounded_by b eb (binary_normalize prec emax m e szero).
Proof.
  intros Hrep Hmag. destruct m as [|p|p]; cbn [binary_normalize].
  - exact I.
  - apply binary_round_bounded; assumption.
  - apply binary_round_bounded; assumption.
Qed.

Lemma mag_le_mul (m1 e1 b1 eb1 m2 e2 b2 eb2 : Z) :
  0 <= m1 -> 0 <= m2 ->
  mag_le m1 e1 b1 eb1 -> mag_le m2 e2 b2 eb2 ->
  mag_le (m1 * m2) (e1 + e2) (b1 * b2) (eb1 + eb2).
Proof.
  intros H1 H2 [He1 Hl1] [He2 Hl2]. split; [lia|].
  replace (eb1 + eb2 - (e1 + e2)) with ((eb1 - e1) + (eb2 - e2)) by lia.
  rewrite Z.pow_add_r by lia.
  assert (0 < 2 ^ (eb1 - e1)) by (apply Z.pow_pos_nonneg; lia).
  assert (0 < 2 ^ (eb2 - e2)) by (apply Z.pow_pos_nonneg; lia).
  nia.
Qed.

Lemma SFmul_bounded (x y : spec_float) (b1 eb1 b2 eb2 : Z) :
  representable prec emax (b1 * b2) (eb1 + eb2) ->
  bounded_by b1 eb1 x -> bounded_by b2 eb2 y ->
  bounded_by (b1 * b2) (eb1 + eb2) (SFmul prec emax x y).
Proof.
  intros Hrep Hx Hy.
  destruct x as [sx|sx| |sx mx ex], y as [sy|sy| |sy my ey];
    cbn in Hx, Hy; try contradiction; cbn [SFmul]; try exact I.
  apply binary_round_aux_bounded; [exact prec_pos | lia | exact Hrep |].
  rewrite Pos2Z.inj_mul. apply mag_le_mul; try lia; assumption.
Qed.

Lemma SFmul_nonneg (x y : spec_float) (b1 eb1 b2 eb2 : Z) :
  representable prec emax (b1 * b2) (eb1 + eb2) ->
  bounded_by b1 eb1 x -> bounded_by b2 eb2 y ->
  nonneg x -> nonneg y -> nonneg (SFmul prec emax x y).
Proof.
  intros Hrep Hx Hy Nx Ny.
  destruct x as [sx|sx| |sx mx ex], y as [sy|sy| |sy my ey];
    cbn in Hx, Hy, Nx, Ny; try contradiction; cbn [SFmul]; try exact I.
  subst sx sy.
  destruct (binary_round_aux_bounded prec emax prec_pos (xorb false false)
              (Zpos (mx * my)) (ex + ey) (b1 * b2) (eb1 + eb2)) as [Hb Hs];
    [lia | exact Hrep | |].
  { rewrite Pos2Z.inj_mul. apply mag_le_mul; try lia; assumption. }
  destruct (binary_round_aux prec emax (xorb false false) (Zpos (mx * my))
              (ex + ey) loc_Exact); cbn in *; auto.
Qed.

(** [x - y] for [0 <= x <= 2 y]: the result stays within [y]. *)
Lemma SFsub_bounded (x : spec_float) (my : positive) (ey b eb : Z) :
  representable prec emax b eb ->
  ey <= eb -> Zpos my = b * 2 ^ (eb - ey) ->
  nonneg x -> bounded_by b (eb + 1) x ->
  bounded_by b eb (SFsub prec emax x (S754_finite false my ey)).
Proof.
  intros Hrep Hey Hmy Nx Hx.
  destruct x as [sx|sx| |sx mx ex]; cbn in Nx, Hx; try contradiction;
    cbn [SFsub negb].
  - cbn. split; [lia|]. lia.
  - subst sx. cbn [cond_Zopp].
    pose proof (shl_align_spec mx ex (Z.min ex ey)) as Hax.
    pose proof (shl_align_spec my ey (Z.min ex ey)) as Hay.
    destruct (shl_align mx ex (Z.min ex ey)) as [ax ezx].
    destruct (shl_align my ey (Z.min ex ey)) as [ay ezy].
    cbn [fst]. destruct Hax as [Hezx Hax], Hay as [Hezy Hay].
    set (ez := Z.min ex ey) in *.
    replace ezx with ez in * by lia. replace ezy with ez in * by lia.
    apply binary_normalize_bounded; [exact Hrep|].
    destruct Hx as [Hex Hlx].
    assert (Hp1 : 0 < 2 ^ (ex - ez)) by (apply Z.pow_pos_nonneg; lia).
    assert (Hp2 : 0 < 2 ^ (ey - ez)) by (apply Z.pow_pos_nonneg; lia).
    assert (Hy' : Zpos ay = b * 2 ^ (eb - ez)).
    { rewrite Hay, Hmy, <- Z.mul_assoc, <- Z.pow_add_r by lia.
      f_equal. f_equal. lia. }
    assert (Hx' : Zpos ax <= 2 * (b * 2 ^ (eb - ez))).
    { rewrite Hax.
      replace (2 * (b * 2 ^ (eb - ez))) with (b * 2 ^ (eb + 1 - ex) * 2 ^ (ex - ez)).
      - nia.
      - rewrite <- Z.mul_assoc, <- Z.pow_add_r by lia.
        replace (eb + 1 - ex + (ex - ez)) with (Z.succ (eb - ez)) by lia.
        rewrite Z.pow_succ_r by lia. lia. }
    split; [lia|]. lia.
Qed.
End Operations.

Lemma dyadic_bounds (m e b eb : Z) :
  0 <= eb -> mag_le (Z.abs m) e b eb ->
  (- inject_Z (b * 2 ^ eb) <= dyadic m e)%Q /\
  (dyadic m e <= inject_Z (b * 2 ^ eb))%Q.
Proof.
  intros Heb [He Hle]. unfold dyadic, Qle, inject_Z.
  destruct e as [|p|p]; cbn [Qnum Qden Qopp].
  - rewrite Z.sub_0_r in Hle. lia.
  - rewrite Z.pow_pos_fold.
    assert (Hp : 0 < 2 ^ Zpos p) by (apply Z.pow_pos_nonneg; lia).
    replace (2 ^ eb) with (2 ^ (eb - Zpos p) * 2 ^ Zpos p)
      by (rewrite <- Z.pow_add_r by lia; f_equal; lia).
    nia.
  - rewrite Pos2Z.inj_pow.
    replace (eb - Zneg p) with (eb + Zpos p) in Hle by lia.
    rewrite Z.pow_add_r in Hle by lia. lia.
Qed.

Lemma dyadic_nonneg (m : positive) (e : Z) : (0 <= dyadic (Zpos m) e)%Q.
Proof.
  unfold dyadic, Qle, inject_Z. destruct e as [|p|p]; cbn [Qnum Qden]; lia.
Qed.

Lemma dyadic_neg (m : positive) (e : Z) : ~ (0 <= dyadic (Zneg m) e)%Q.
Proof.
  unfold dyadic, Qle, inject_Z. destruct e as [|p|p]; cbn [Qnum Qden]; lia.
Qed.

Lemma dyadic_le_1 (m : positive) (e : Z) :
  (dyadic (Zpos m) e <= 1)%Q -> mag_le (Zpos m) e 1 0.
Proof.
  unfold dyadic, Qle, inject_Z, mag_le. destruct e as [|p|p]; cbn [Qnum Qden].
  - intros H. split; [lia|]. cbn. lia.
  - rewrite Z.pow_pos_fold. intros H.
    assert (2 ^ 1 <= 2 ^ Zpos p) by (apply Z.pow_le_mono_r; lia).
    change (2 ^ 1) with 2 in *. nia.
  - rewrite Pos2Z.inj_pow. intros H. split; [lia|].
    replace (0 - Zneg p) with (Zpos p) by lia. lia.
Qed.

(** Values of finite results, from magnitudes. *)
Lemma bounded_by_value (x : spec_float) (b eb : Z) :
  0 <= b -> 0 <= eb -> bounded_by b eb x ->
  is_finite x = true /\
  (- inject_Z (b * 2 ^ eb) <= SF2Q x)%Q /\ (SF2Q x <= inject_Z (b * 2 ^ eb))%Q.
Proof.
  intros Hb Heb Hx. destruct x as [s|s| |s m e]; cbn in Hx; try contradiction.
  - cbn [is_finite SF2Q]. split; [reflexivity|].
    assert (0 <= b * 2 ^ eb) as H0.
    { apply Z.mul_nonneg_nonneg; [exact Hb | apply Z.pow_nonneg; lia]. }
    unfold Qle, inject_Z. cbn [Qnum Qden Qopp]. lia.
  - cbn [is_finite SF2Q]. split; [reflexivity|].
    apply dyadic_bounds; [exact Heb|].
    destruct s; cbn [cond_Zopp Z.abs Z.opp]; exact Hx.
Qed.

Lemma nonneg_value (x : spec_float) : nonneg x -> (0 <= SF2Q x)%Q.
Proof.
  destruct x as [s|s| |s m e]; cbn [nonneg SF2Q]; try contradiction.
  - intros _. apply Qle_refl.
  - intros ->. apply dyadic_nonneg.
Qed.

Lemma unit_interval_bounded (r : spec_float) :
  in_unit_interval r -> nonneg r /\ bounded_by 1 0 r.
Proof.
  intros (Hfin & H0 & H1).
  destruct r as [s|s| |s m e]; cbn in Hfin; try discriminate; cbn [nonneg bounded_by].
  - split; exact I.
  - cbn [SF2Q] in H0, H1. destruct s; cbn [cond_Zopp Z.opp] in H0, H1.
    + exfalso. exact (dyadic_neg m e H0).
    + split; [reflexivity | apply dyadic_le_1; exact H1].
Qed.

Lemma float_of_double_bounded (x : spec_float) (b eb : Z) :
  representable prec32 emax32 b eb -> bounded_by b eb x ->
  bounded_by b eb (float_of_double x) /\ (nonneg x -> nonneg (float_of_double x)).
Proof.
  intros Hrep Hx. destruct x as [s|s| |s m e]; cbn in Hx; try contradiction;
    cbn [float_of_double].
  - split; [exact I | auto].
  - destruct (binary_round_bounded prec32 emax32 ltac:(reflexivity) s m e b eb Hrep Hx)
      as [Hb Hs].
    split; [exact Hb|]. cbn [nonneg]. intros ->.
    destruct (binary_round prec32 emax32 false m e); cbn in *; auto.
Qed.

Lemma pt_of_range (r : spec_float) :
  in_unit_interval r ->
  is_finite (HistRun.pt_of r) = true /\
  (0 <= SF2Q (HistRun.pt_of r))%Q /\ (SF2Q (HistRun.pt_of r) <= 150)%Q.
Proof.
  intros Hr. destruct (unit_interval_bounded r Hr) as [Nr Br].
  assert (H150 : bounded_by 75 1 (double_of_int 150) /\ nonneg (double_of_int 150)).
  { vm_compute. intuition discriminate. }
  destruct H150 as [B150 N150].
  assert (Hrep64 : representable prec64 emax64 (1 * 75) (0 + 1)).
  { vm_compute. intuition discriminate. }
  pose proof (SFmul_bounded prec64 emax64 ltac:(reflexivity) r _ 1 0 75 1
                Hrep64 Br B150) as Bm.
  pose proof (SFmul_nonneg prec64 emax64 ltac:(reflexivity) r _ 1 0 75 1
                Hrep64 Br B150 Nr N150) as Nm.
  assert (Hrep32 : representable prec32 emax32 (1 * 75) (0 + 1)).
  { vm_compute. intuition discriminate. }
  destruct (float_of_double_bounded _ _ _ Hrep32 Bm) as [Bf Nf].
  destruct (bounded_by_value _ (1 * 75) (0 + 1) ltac:(lia) ltac:(lia) Bf)
    as (Hfin & _ & Hhi).
  split; [exact Hfin|]. split; [apply nonneg_value, Nf, Nm | exact Hhi].
Qed.

Lemma eta_of_range (r : spec_float) :
  in_unit_interval r ->
  is_finite (HistRun.eta_of r) = true /\
  (-5 <= SF2Q (HistRun.eta_of r))%Q /\ (SF2Q (HistRun.eta_of r) <= 5)%Q.
Proof.
  intros Hr. destruct (unit_interval_bounded r Hr) as [Nr Br].
  unfold HistRun.eta_of, Root.double_lit.
  assert (H10 : bounded_by 5 1 (double_of_int 10) /\ nonneg (double_of_int 10)).
  { vm_compute. intuition discriminate. }
  destruct H10 as [B10 N10].
  assert (Hrep10 : representable prec64 emax64 (1 * 5) (0 + 1)).
  { vm_compute. intuition discriminate. }
  pose proof (SFmul_bounded prec64 emax64 ltac:(reflexivity) r _ 1 0 5 1
                Hrep10 Br B10) as Bm.
  pose proof (SFmul_nonneg prec64 emax64 ltac:(reflexivity) r _ 1 0 5 1
                Hrep10 Br B10 Nr N10) as Nm.
  assert (Hrep5 : representable prec64 emax64 5 0).
  { vm_compute. intuition discriminate. }
  assert (Bs : bounded_by 5 0 (dsub (dmul r (double_of_int 10)) (double_of_int 5))).
  { change (double_of_int 5) with (S754_finite false 5629499534213120 (-50)).
    apply SFsub_bounded;
      [reflexivity | exact Hrep5 | lia | reflexivity | exact Nm | exact Bm]. }
  assert (Hrep32 : representable prec32 emax32 5 0).
  { vm_compute. intuition discriminate. }
  destruct (float_of_double_bounded _ _ _ Hrep32 Bs) as [Bf _].
  exact (bounded_by_value _ 5 0 ltac:(lia) ltac:(lia) Bf).
Qed.

(** ** III.c  The run of [hist.C] *)

Import Root HistRun.

Lemma bind_run {A B} (m : M A) (k : A -> M B) (s s' : Session) (a : A) :
  m s = Some (a, s') -> bind m k s = k a s'.
Proof. intros H. unfold bind. rewrite H. reflexivity. Qed.

(** The [for] loop: [n] iterations draw [2 n] numbers, append [n] entries
    to the tree and leave everything else as it was. *)
Lemma loop_runs (gRandom : N -> spec_float) (n : nat) :
  forall i dir hs ps gp es fl gd a b nd (D : gmap string FileData) E,
    for_count n i (loop_body gRandom)
      {| cwd := dir; hists := hs; pads := ps; gPad := gp;
         trees := [("tree", the_tree es)]; files := fl; gDirectory := gd;
         floats := [("pt", a); ("eta", b)]; ndraws := nd; disk := D; events := E |}
    = Some (tt,
      {| cwd := dir; hists := hs; pads := ps; gPad := gp;
         trees := [("tree", the_tree (es ++ rows gRandom nd n))]; files := fl;
         gDirectory := gd;
         floats := floats_after gRandom nd n [("pt", a); ("eta", b)];
         ndraws := (nd + 2 * N.of_nat n)%N; disk := D;
         events := E ++ repeat (EvFill "tree") n |}).
Proof.
  induction n as [|n IH]; intros.
  - cbn. rewrite !app_nil_r, N.add_0_r. reflexivity.
  - cbn [for_count]. unfold bind at 1.
    replace (loop_body gRandom i _) with
      (Some (tt, {| cwd := dir; hists := hs; pads := ps; gPad := gp;
         trees := [("tree", the_tree (es ++ [row gRandom nd]))]; files := fl;
         gDirectory := gd; floats := row gRandom nd;
         ndraws := N.succ (N.succ nd); disk := D;
         events := E ++ [EvFill "tree"] |})) by reflexivity.
    unfold row at 2. rewrite IH.
    cbn [rows floats_after repeat]. rewrite <- !app_assoc. cbn [app].
    replace (nd + 2 * N.of_nat (S n))%N
      with (N.succ (N.succ nd) + 2 * N.of_nat n)%N by lia.
    reflexivity.
Qed.

(** One call of the macro, evaluated on the session reached so far. *)
Ltac run_step :=
  erewrite bind_run;
  [ | cbv beta iota zeta delta -[insert map_insert gmap_partial_alter
                                  String.eq_dec String.countable
                                  String.append for_count float_of_double
                                  dmul dsub double_lit double_of_int
                                  rows floats_after row the_tree];
      reflexivity ];
  cbv beta.

(** The macro runs to its end, from any directory, on any disk and for any
    sequence of random numbers, and ends in the session [final]. *)
Lemma hist_runs (gRandom : N -> spec_float) (dir : string)
      (d : gmap string FileData) :
  run gRandom dir d = Some (final gRandom dir d).
Proof.
  unfold run, hist, for_range, start.
  do 11 run_step.
  change (fun _ : Z => _) with (loop_body gRandom).
  change (Z.to_nat (100 - 0)) with 100%nat.
  erewrite bind_run by (apply (loop_runs gRandom 100 0 dir _ _ _ [])).
  run_step.
  reflexivity.
Qed.

Lemma rows_length (gRandom : N -> spec_float) (n : nat) :
  forall nd, List.length (rows gRandom nd n) = n.
Proof. induction n as [|n IH]; intros nd; cbn [rows List.length]; [|rewrite IH]; reflexivity. Qed.

Lemma rows_shape (gRandom : N -> spec_float) (n : nat) :
  forall nd, Forall (fun e => exists k, e = row gRandom k) (rows gRandom nd n).
Proof.
  induction n as [|n IH]; intros nd; cbn [rows]; constructor; [|apply IH].
  exists nd. reflexivity.
Qed.

(** The file the macro leaves at [simple_tree.root]. *)
Lemma final_root_file (gRandom : N -> spec_float) (dir : string)
      (d : gmap string FileData) :
  disk (final gRandom dir d) !! root_path dir
  = Some (RootFile [("tree", the_tree (rows gRandom 10000 100))]).
Proof. cbn [disk final]. apply lookup_insert_eq. Qed.

Lemma final_records (gRandom : N -> spec_float) :
  Fixtures.records (RootFile [("tree", the_tree (rows gRandom 10000 100))])
  = rows gRandom 10000 100.
Proof. exact (app_nil_r (rows gRandom 10000 100)). Qed.

Lemma final_fills (gRandom : N -> spec_float) (dir : string)
      (d : gmap string FileData) :
  Fixtures.fills (events (final gRandom dir d)) = 100%nat.
Proof. reflexivity. Qed.

(** C2: on every execution the macro ends normally, and the structured
    data file it has written holds exactly 100 records, as many as the
    fill operations it performed. *)
Theorem hist_stores_100_records (gRandom : N -> spec_float) (dir : string)
        (d : gmap string FileData) :
  exists (s : Session) (f : FileData),
    run gRandom dir d = Some s /\
    disk s !! Path.resolve dir "simple_tree.root" = Some f /\
    List.length (Fixtures.records f) = 100%nat /\
    Fixtures.fills (events s) = 100%nat /\
    List.length (Fixtures.records f) = Fixtures.fills (events s).
Proof.
  exists (final gRandom dir d), (RootFile [("tree", the_tree (rows gRandom 10000 100))]).
  split; [apply hist_runs|]. split; [apply final_root_file|].
  rewrite final_records, rows_length, final_fills. auto.
Qed.

(** C9: every record stored in the structured data file has exactly the
    two fields [pt] and [eta], in this order, and there are 100 records. *)
Theorem hist_records_have_two_fields (gRandom : N -> spec_float) (dir : string)
        (d : gmap string FileData) :
  exists (s : Session) (f : FileData),
    run gRandom dir d = Some s /\
    disk s !! Path.resolve dir "simple_tree.root" = Some f /\
    List.length (Fixtures.records f) = 100%nat /\
    Forall (fun e : entry => map fst e = ["pt"; "eta"] /\ List.length e = 2%nat)
           (Fixtures.records f).
Proof.
  exists (final gRandom dir d), (RootFile [("tree", the_tree (rows gRandom 10000 100))]).
  split; [apply hist_runs|]. split; [apply final_root_file|].
  rewrite final_records, rows_length. split; [reflexivity|].
  eapply Forall_impl; [apply rows_shape|].
  intros e [k ->]. split; reflexivity.
Qed.

(** C10: when every number the generator returns lies in [0, 1], every
    record written by the macro has a finite [pt] in [0, 150] and a
    finite [eta] in [-5, 5]. *)
Theorem hist_records_in_range (gRandom : N -> spec_float) (dir : string)
        (d : gmap string FileData) :
  (forall n : N, in_unit_interval (gRandom n)) ->
  exists (s : Session) (f : FileData),
    run gRandom dir d = Some s /\
    disk s !! Path.resolve dir "simple_tree.root" = Some f /\
    Forall (fun e : entry =>
              exists pt eta : spec_float,
                e = [("pt", pt); ("eta", eta)] /\
                is_finite pt = true /\ (0 <= SF2Q pt)%Q /\ (SF2Q pt <= 150)%Q /\
                is_finite eta = true /\ (-5 <= SF2Q eta)%Q /\ (SF2Q eta <= 5)%Q)
           (Fixtures.records f).
Proof.
  intros Hgen.
  exists (final gRandom dir d), (RootFile [("tree", the_tree (rows gRandom 10000 100))]).
  split; [apply hist_runs|]. split; [apply final_root_file|].
  rewrite final_records.
  eapply Forall_impl; [apply rows_shape|].
  intros e [k ->]. eexists _, _. split; [reflexivity|].
  destruct (pt_of_range (gRandom k) (Hgen k)) as (H1 & H2 & H3).
  destruct (eta_of_range (gRandom (N.succ k)) (Hgen (N.succ k))) as (H4 & H5 & H6).
  auto 10.
Qed.

(** ** III.d  Where the macro writes *)

Lemma strip_prefix_app (pre rest : string) :
  Path.strip_prefix pre (pre ++ rest) = Some rest.
Proof.
  induction pre as [|c pre IH]; [reflexivity|].
  rewrite append_cons. cbn [Path.strip_prefix]. rewrite Ascii.eqb_refl. exact IH.
Qed.

(** A relative name that does not climb resolves to a file inside the
    current directory. *)
Lemma inside_resolve (dir name : string) :
  Path.is_relative name = true -> name <> EmptyString -> Path.climbs name = false ->
  Path.inside dir (Path.resolve dir name) = true.
Proof.
  intros Hrel Hne Hclimb. unfold Path.resolve, Path.inside.
  unfold Path.is_relative in Hrel. apply negb_true_iff in Hrel. rewrite Hrel.
  rewrite <- append_assoc, strip_prefix_app, Hclimb.
  destruct name; [congruence | reflexivity].
Qed.

Lemma pdf_path_inside (dir : string) : Path.inside dir (pdf_path dir) = true.
Proof. apply inside_resolve; [reflexivity | discriminate | reflexivity]. Qed.

Lemma root_path_inside (dir : string) : Path.inside dir (root_path dir) = true.
Proof. apply inside_resolve; [reflexivity | discriminate | reflexivity]. Qed.

Lemma pdf_root_distinct (dir : string) : pdf_path dir <> root_path dir.
Proof.
  unfold pdf_path, root_path, Path.resolve. cbn [Path.is_absolute Ascii.eqb].
  intros H. apply String.app_inj in H. discriminate H.
Qed.

Lemma final_targets (gRandom : N -> spec_float) (dir : string)
      (d : gmap string FileData) :
  Fixtures.targets (events (final gRandom dir d))
  = [pdf_path dir; root_path dir; root_path dir].
Proof. reflexivity. Qed.

Lemma final_disk (gRandom : N -> spec_float) (dir : string)
      (d : gmap string FileData) :
  disk (final gRandom dir d)
  = <[root_path dir := RootFile [("tree", the_tree (rows gRandom 10000 100))]]>
      (<[pdf_path dir := PdfDocument [("h", the_hist)]]> d).
Proof. cbn [disk final]. apply insert_insert_eq. Qed.

Lemma rows_consistent (gRandom : N -> spec_float) (n : nat) :
  forall nd,
    forallb (fun e : entry => Nat.eqb (List.length e) 2) (rows gRandom nd n) = true.
Proof. induction n as [|n IH]; intros nd; cbn [rows forallb]; [|rewrite IH]; reflexivity. Qed.

Lemma the_tree_consistent (gRandom : N -> spec_float) :
  Core.consistentTree ("tree", the_tree (rows gRandom 10000 100)) = true.
Proof.
  unfold Core.consistentTree. cbn [snd the_tree t_entries t_branches].
  rewrite rows_length. cbn [List.length]. rewrite rows_consistent. reflexivity.
Qed.

(** C3: every execution of the macro writes exactly two files: the
    rendered plot, a binary document, at [hist.pdf], and the tabular
    container, a structured data file, at [simple_tree.root].  The two are
    distinct, and the disk is otherwise as it was. *)
Theorem hist_writes_two_files (gRandom : N -> spec_float) (dir : string)
        (d : gmap string FileData) :
  exists (s : Session) (drawn : list (string * TH1F)) (keys : list (string * TTree)),
    run gRandom dir d = Some s /\
    Path.resolve dir "hist.pdf" <> Path.resolve dir "simple_tree.root" /\
    disk s = <[Path.resolve dir "simple_tree.root" := RootFile keys]>
               (<[Path.resolve dir "hist.pdf" := PdfDocument drawn]> d) /\
    (forall p : string,
        p ∈ Fixtures.targets (events s) <->
        p = Path.resolve dir "hist.pdf" \/ p = Path.resolve dir "simple_tree.root") /\
    Core.probe Core.BinaryDocument (PdfDocument drawn) = true /\
    Core.probe Core.StructuredDataFile (RootFile keys) = true.
Proof.
  exists (final gRandom dir d), [("h", the_hist)],
         [("tree", the_tree (rows gRandom 10000 100))].
  split; [apply hist_runs|]. split; [apply pdf_root_distinct|].
  split; [apply final_disk|]. split; [|split].
  - intros p. rewrite final_targets. fold (pdf_path dir) (root_path dir).
    rewrite !elem_of_cons, elem_of_nil. tauto.
  - reflexivity.
  - cbn [Core.probe List.length Nat.eqb negb forallb].
    rewrite the_tree_consistent. reflexivity.
Qed.

Lemma final_writes_inside (gRandom : N -> spec_float) (dir : string)
      (d : gmap string FileData) :
  Forall (stays_inside dir) (events (final gRandom dir d)).
Proof.
  cbn [events final]. repeat apply Forall_app_2.
  - repeat constructor; [apply pdf_path_inside | apply root_path_inside].
  - apply Forall_forall. intros e He. apply list_elem_of_In, repeat_spec in He. subst e. exact I.
  - repeat constructor. apply root_path_inside.
Qed.

Lemma final_not_escaped (gRandom : N -> spec_float) (dir : string)
      (d : gmap string FileData) :
  Core.escaped dir (Fixtures.targets (events (final gRandom dir d))) = false.
Proof.
  rewrite final_targets. unfold Core.escaped. cbn [existsb].
  rewrite pdf_path_inside, root_path_inside. reflexivity.
Qed.

(** ** III.e  The execution core *)

Import Core Fixtures JobRun.










Section FixtureJobs.
Context {limits : Libc.Limits}.
Variables (gRandom : N -> spec_float) (ticks : nat).
Variables (available : bool) (budget limit : nat).
Variables (creatable : string -> bool) (body : FileData -> N).

Local Abbreviation cfg :=
  (fixtureConfig gRandom ticks available budget limit creatable body).

(** The interpreted job, when the interpreter is there and the run fits
    the time budget. *)
Lemma runJob_script (d : JobDescriptor) (m : Machine) :
  kind d = InterpretedScript -> available = true ->
  workdirReady cfg d (m_disk m) = true ->
  runJob cfg d m =
    if (budget <? ticks)%nat then
      (inr ({| prepareStatus := None; runStatus := Aborted Timeout;
               capturedOutput := truncate limit EmptyString |}, []),
       {| m_disk := disk (final gRandom (workingDirectory d) (m_disk m));
          m_journal := (m_journal m ++ [CallPrepare]) ++ [CallExecute] |})
    else
      (inr ({| prepareStatus := None; runStatus := Exited 0;
               capturedOutput := truncate limit EmptyString |},
            validate cfg (workingDirectory d)
                     (disk (final gRandom (workingDirectory d) (m_disk m)))
                     (expectedArtifacts d)),
       {| m_disk := disk (final gRandom (workingDirectory d) (m_disk m));
          m_journal := ((m_journal m ++ [CallPrepare]) ++ [CallExecute])
                         ++ [CallValidate] |}).
Proof.
  intros Hkind Hav Hready. unfold runJob. rewrite Hready, Hkind.
  rewrite Hav.
  cbn [negb adapterFor interpretedAdapter prepare execute toolchain fixtureConfig
       fixtureToolchain interpreterAvailable interpret timeBudget outputLimit].
  unfold root_process. rewrite hist_runs.
  cbn [elapsed written output termination]. rewrite final_not_escaped.
  reflexivity.
Qed.

Lemma runJob_script_unavailable (d : JobDescriptor) (m : Machine) :
  kind d = InterpretedScript -> available = false ->
  workdirReady cfg d (m_disk m) = true ->
  runJob cfg d m =
    (inr ({| prepareStatus := Some RuntimeUnavailable; runStatus := NotRun;
             capturedOutput := truncate limit "interpreter runtime unavailable" |},
          []),
     {| m_disk := m_disk m; m_journal := m_journal m ++ [CallPrepare] |}).
Proof.
  intros Hkind Hav Hready. unfold runJob. rewrite Hready, Hkind.
  rewrite Hav. reflexivity.
Qed.

(** The native job, when the run fits the time budget. *)
Lemma runJob_native (d : JobDescriptor) (m : Machine) :
  kind d = NativeCompiled ->
  workdirReady cfg d (m_disk m) = true ->
  runJob cfg d m =
    if (budget <? ticks)%nat then
      (inr ({| prepareStatus := None; runStatus := Aborted Timeout;
               capturedOutput := truncate limit expected_output |}, []),
       {| m_disk := <[executablePath d := OtherFile "ELF"]> (m_disk m);
          m_journal := (m_journal m ++ [CallPrepare]) ++ [CallExecute] |})
    else
      (inr ({| prepareStatus := None; runStatus := Exited 0;
               capturedOutput := truncate limit expected_output |},
            validate cfg (workingDirectory d)
                     (<[executablePath d := OtherFile "ELF"]> (m_disk m))
                     (expectedArtifacts d)),
       {| m_disk := <[executablePath d := OtherFile "ELF"]> (m_disk m);
          m_journal := ((m_journal m ++ [CallPrepare]) ++ [CallExecute])
                         ++ [CallValidate] |}).
Proof.
  intros Hkind Hready. unfold runJob. rewrite Hready, Hkind.
  cbn [negb adapterFor nativeAdapter prepare execute toolchain fixtureConfig
       fixtureToolchain compile runExecutable timeBudget outputLimit cc].
  rewrite lookup_insert_eq.
  rewrite (bool_decide_eq_true_2 _ (mk_is_Some _ _ eq_refl)).
  cbn [Z.eqb andb]. unfold showsize_process. rewrite run_main.
  cbn [elapsed written output termination escaped existsb].
  reflexivity.
Qed.
End FixtureJobs.

(** C7: when the prepare step fails, [runJob] stops there: the verdict is
    [PrepareFailed], the list of artifact checks is empty, the only call
    made is the one to [prepare], and the result does not depend on what
    executing the job would have done. *)
Theorem prepare_failure_short_circuits (cfg : Config) (d : JobDescriptor)
        (m : Machine) :
  prepareFails cfg d m ->
  exists (r : ExecutionResult) (m' : Machine),
    runJob cfg d m = (inr (r, []), m') /\
    verdictOf cfg d m = Some (report r []) /\
    outcome (report r []) = PrepareFailed /\
    artifactChecks (report r []) = [] /\
    m_journal m' = (m_journal m ++ [CallPrepare])%list /\
    forall cfg' : Config, samePreparation cfg cfg' -> runJob cfg' d m = runJob cfg d m.
Proof.
  intros [Hready [why Hfail]].
  assert (Hrun : forall cfg' : Config,
             samePreparation cfg cfg' ->
             runJob cfg' d m =
               (inr ({| prepareStatus := Some why; runStatus := NotRun;
                        capturedOutput :=
                          truncate (outputLimit cfg)
                            match why with
                            | CompileError text => text
                            | RuntimeUnavailable => "interpreter runtime unavailable"
                            end |}, []),
                {| m_disk := snd (prepare (adapterFor (toolchain cfg) (kind d)) d (m_disk m));
                   m_journal := (m_journal m ++ [CallPrepare])%list |})).
  { intros cfg' (Hc & Ha & _ & Hl & Hcr & _). unfold runJob.
    assert (Hready' : workdirReady cfg' d (m_disk m) = true).
    { unfold workdirReady in *. rewrite <- Hcr. exact Hready. }
    rewrite Hready'. cbn [negb].
    assert (Hprep : prepare (adapterFor (toolchain cfg') (kind d)) d (m_disk m)
                    = prepare (adapterFor (toolchain cfg) (kind d)) d (m_disk m)).
    { destruct (kind d); cbn [adapterFor nativeAdapter interpretedAdapter prepare];
        rewrite <- ?Hc, <- ?Ha; reflexivity. }
    rewrite Hprep.
    destruct (prepare (adapterFor (toolchain cfg) (kind d)) d (m_disk m)) as [pr w1].
    cbn [fst snd] in *. subst pr. rewrite <- Hl. reflexivity. }
  assert (Hself : samePreparation cfg cfg) by (repeat split).
  eexists _, _. split; [exact (Hrun cfg Hself)|].
  split; [unfold verdictOf; rewrite (Hrun cfg Hself); reflexivity|].
  split; [destruct why; reflexivity|].
  split; [destruct why; reflexivity|].
  split; [reflexivity|].
  intros cfg' Hsame. rewrite (Hrun cfg' Hsame), (Hrun cfg Hself). reflexivity.
Qed.

(** C4: every write of the macro names its file by a relative path that
    does not climb, so that, run with the working directory as current
    directory, every file lands inside the working directory; run as a job,
    the macro never ends in [ArtifactEscapedSandbox]. *)
Theorem hist_writes_stay_in_workdir (limits : Libc.Limits)
        (gRandom : N -> spec_float) (dir : string) (w : Disk) :
  (exists s : Session,
      run gRandom dir w = Some s /\ Forall (stays_inside dir) (events s)) /\
  forall (ticks : nat) (available : bool) (budget limit : nat)
         (creatable : string -> bool) (body : FileData -> N)
         (d : JobDescriptor) (m m' : Machine)
         (r : ExecutionResult) (checks : list ArtifactCheck),
    kind d = InterpretedScript ->
    runJob (fixtureConfig gRandom ticks available budget limit creatable body) d m
    = (inr (r, checks), m') ->
    runStatus r <> Aborted ArtifactEscapedSandbox.
Proof.
  split.
  - exists (final gRandom dir w). split; [apply hist_runs | apply final_writes_inside].
  - intros ticks available budget limit creatable body d m m' r checks Hkind Hrun.
    destruct (workdirReady (fixtureConfig gRandom ticks available budget limit
                              creatable body) d (m_disk m)) eqn:Hready.
    + destruct available.
      * rewrite runJob_script in Hrun by auto.
        destruct (budget <? ticks)%nat; inversion Hrun; cbn; discriminate.
      * rewrite runJob_script_unavailable in Hrun by auto.
        inversion Hrun; cbn; discriminate.
    + unfold runJob in Hrun. rewrite Hready in Hrun. discriminate Hrun.
Qed.

(** C5: the program exits with status 0 whatever its arguments; hence a
    NativeCompiled job for it that declares no artifact, whose working
    directory can be set up and whose run fits the time budget, gets the
    verdict [Passed]. *)
Theorem showsize_job_passes (limits : Libc.Limits) :
  (forall (arg : Z) (argv : list string),
      exists out : string, Showsize.run arg argv = Some (0, out)) /\
  forall (gRandom : N -> spec_float) (ticks : nat) (available : bool)
         (budget limit : nat) (creatable : string -> bool) (body : FileData -> N)
         (d : JobDescriptor) (m : Machine),
    let cfg := fixtureConfig gRandom ticks available budget limit creatable body in
    kind d = NativeCompiled ->
    expectedArtifacts d = [] ->
    workdirReady cfg d (m_disk m) = true ->
    (ticks <= budget)%nat ->
    exists v : Verdict, verdictOf cfg d m = Some v /\ outcome v = Passed.
Proof.
  split.
  - intros arg argv. exists expected_output. apply run_main.
  - intros gRandom ticks available budget limit creatable body d m cfg
           Hkind Hnone Hready Hticks.
    unfold verdictOf. subst cfg. rewrite runJob_native by assumption.
    replace (budget <? ticks)%nat with false by (symmetry; apply Nat.ltb_ge; exact Hticks).
    rewrite Hnone. cbn [fst validate map]. eexists. split; reflexivity.
Qed.








(** ** III.f  The statements at the example inputs *)

Import Examples.

(** The programs and the core, evaluated. *)

Example showsize_on_lp64 :
  @Showsize.run Libc.lp64 1 ["./showsize"]
  = Some (0, "Hi" ++ nl ++ "Max int = 2147483647" ++ nl ++
             "Max unsigned long long = 18446744073709551615" ++ nl).
Proof. reflexivity. Qed.

(** The bounds of [pt] and [eta] are reached. *)
Example pt_at_half : (SF2Q (pt_of half) == 75)%Q.
Proof. reflexivity. Qed.

Example pt_bound_attained : pt_of below_one = binary_normalize prec32 emax32 150 0 false.
Proof. reflexivity. Qed.

Example eta_at_zero : (SF2Q (eta_of (S754_zero false)) == -5)%Q.
Proof. reflexivity. Qed.

Example eta_at_one : (SF2Q (eta_of (double_of_int 1)) == 5)%Q.
Proof. reflexivity. Qed.

Example eta_at_half : eta_of half = S754_zero false.
Proof. reflexivity. Qed.

(** Verdicts of the execution core on the example jobs. *)
Example script_job_passes :
  option_map outcome (verdictOf (exampleConfig steady true) (scriptJob "/job") emptyMachine)
  = Some Passed.
Proof. vm_compute. reflexivity. Qed.

Example script_job_without_interpreter :
  option_map outcome (verdictOf (exampleConfig steady false) (scriptJob "/job") emptyMachine)
  = Some PrepareFailed.
Proof. vm_compute. reflexivity. Qed.

Example native_job_with_missing_artifact :
  option_map outcome
    (verdictOf (exampleConfig steady true)
       {| kind := NativeCompiled; sourcePath := "showsize.c";
          workingDirectory := "/job";
          expectedArtifacts := [ {| relPath := "out.log"; artifactKind := TextLog |} ] |}
       emptyMachine)
  = Some ArtifactMissing.
Proof. vm_compute. reflexivity. Qed.

Example slow_job_times_out :
  option_map outcome
    (verdictOf (@fixtureConfig Libc.lp64 steady 11 true 10 4096 (fun _ => true) (fun _ => 0%N))
       (nativeJob "/job") emptyMachine)
  = Some RunFailed.
Proof. vm_compute. reflexivity. Qed.

(** Two runs that the core does not observe alike need not agree: the
    native job within the budget, and over it. *)
Example uneven_runs_disagree :
  option_map outcome (verdictOf (slowConfig 1) (nativeJob "/job1") emptyMachine)
  = Some Passed /\
  option_map outcome (verdictOf (slowConfig 11) (nativeJob "/job2") emptyMachine)
  = Some RunFailed.
Proof. vm_compute. split; reflexivity. Qed.

Example used_directory_is_refused :
  verdictOf (exampleConfig steady true) (nativeJob "/job")
            {| m_disk := {["/job/old" := OtherFile "x"]}; m_journal := [] |}
  = None.
Proof. vm_compute. reflexivity. Qed.

(** The theorems with hypotheses, applied. *)

(** The records of a run whose generator is stuck at 1/2. *)
Lemma hist_records_in_range_witness :
  exists (s : Session) (f : FileData),
    run steady "/job" ∅ = Some s /\
    disk s !! Path.resolve "/job" "simple_tree.root" = Some f /\
    Forall (fun e : entry =>
              exists pt eta : spec_float,
                e = [("pt", pt); ("eta", eta)] /\
                is_finite pt = true /\ (0 <= SF2Q pt)%Q /\ (SF2Q pt <= 150)%Q /\
                is_finite eta = true /\ (-5 <= SF2Q eta)%Q /\ (SF2Q eta <= 5)%Q)
           (Fixtures.records f).
Proof.
  apply (hist_records_in_range steady "/job" ∅).
  intros n. repeat split; vm_compute; congruence.
Defined.

(** The interpreted example job, run on an empty machine. *)
Lemma hist_writes_stay_in_workdir_witness :
  exists (r : ExecutionResult) (checks : list ArtifactCheck) (m' : Machine),
    runJob (exampleConfig steady true) (scriptJob "/job") emptyMachine
    = (inr (r, checks), m') /\
    runStatus r <> Aborted ArtifactEscapedSandbox.
Proof.
  eexists _, _, _. split; [vm_compute; reflexivity|].
  eapply (proj2 (hist_writes_stay_in_workdir Libc.lp64 steady "/job" ∅)
                1%nat true 10%nat 4096%nat (fun _ => true) (fun _ => 0%N)
                (scriptJob "/job") emptyMachine);
    [reflexivity | vm_compute; reflexivity].
Defined.

(** The native example job, run on an empty machine. *)
Lemma showsize_job_passes_witness :
  exists v : Verdict,
    verdictOf (exampleConfig steady true) (nativeJob "/job") emptyMachine = Some v /\
    outcome v = Passed.
Proof.
  apply (proj2 (showsize_job_passes Libc.lp64) steady 1%nat true 10%nat 4096%nat
               (fun _ => true) (fun _ => 0%N) (nativeJob "/job") emptyMachine);
    [reflexivity | reflexivity | vm_compute; reflexivity | lia].
Defined.


(** The interpreted example job where no interpreter is installed. *)
Lemma prepare_failure_short_circuits_witness :
  exists (r : ExecutionResult) (m' : Machine),
    runJob (exampleConfig steady false) (scriptJob "/job") emptyMachine
    = (inr (r, []), m') /\
    outcome (report r []) = PrepareFailed.
Proof.
  destruct (prepare_failure_short_circuits (exampleConfig steady false)
              (scriptJob "/job") emptyMachine)
    as (r & m' & Hrun & _ & Hout & _).
  - split; [vm_compute; reflexivity | exists RuntimeUnavailable; reflexivity].
  - exists r, m'. auto.
Defined.

(** ** III.g  The output of [showsize], read back *)

(** The decimal conversions of [printf] lose nothing: reading a numeral
    back gives the number printed. *)
Lemma to_int_proper (v : Z) :
  Z.to_int v <> Decimal.Pos Decimal.Nil /\ Z.to_int v <> Decimal.Neg Decimal.Nil.
Proof.
  destruct v as [|p|p]; cbn [Z.to_int]; split; try discriminate;
    intros [= H]; exact (DecimalPos.Unsigned.to_uint_nonnil p H).
Qed.

Lemma read_dec_signed (v : Z) : read_signed (Libc.dec_signed v) = Some v.
Proof.
  unfold read_signed, Libc.dec_signed.
  destruct (to_int_proper v) as [H1 H2].
  rewrite NilZero.isi by assumption. cbn [option_map].
  rewrite DecimalZ.of_to. reflexivity.
Qed.

Lemma N_to_uint_nonnil (n : N) : N.to_uint n <> Decimal.Nil.
Proof.
  destruct n as [|p]; [discriminate | apply DecimalPos.Unsigned.to_uint_nonnil].
Qed.

Lemma read_dec_unsigned (v : Z) :
  0 <= v -> read_unsigned (Libc.dec_unsigned v) = Some v.
Proof.
  intros Hv. unfold read_unsigned, Libc.dec_unsigned.
  rewrite NilZero.usu by apply N_to_uint_nonnil. cbn [option_map].
  rewrite DecimalN.Unsigned.of_to, Z2N.id by exact Hv. reflexivity.
Qed.

(** X1: the two limits can be read back from the output: the numeral on
    the second line denotes [INT_MAX] and the numeral on the third line
    denotes [ULLONG_MAX] (which, as the maximum of an unsigned type, is
    not negative). *)
Theorem showsize_limits_read_back (limits : Libc.Limits) (arg : Z)
        (argv : list string) :
  0 <= Libc.ULLONG_MAX ->
  exists out a b : string,
    Showsize.run arg argv = Some (0, out) /\
    Libc.lines out = ["Hi"; "Max int = " ++ a; "Max unsigned long long = " ++ b] /\
    read_signed a = Some Libc.INT_MAX /\
    read_unsigned b = Some Libc.ULLONG_MAX.
Proof.
  intros Hu.
  exists expected_output, (Libc.dec_signed Libc.INT_MAX),
         (Libc.dec_unsigned Libc.ULLONG_MAX).
  split; [apply run_main|]. split; [apply lines_expected_output|].
  split; [apply read_dec_signed | apply read_dec_unsigned; exact Hu].
Qed.

Lemma showsize_limits_read_back_witness :
  exists out a b : string,
    @Showsize.run Libc.lp64 1 ["./showsize"] = Some (0, out) /\
    Libc.lines out = ["Hi"; "Max int = " ++ a; "Max unsigned long long = " ++ b] /\
    read_signed a = Some (2 ^ 31 - 1) /\
    read_unsigned b = Some (2 ^ 64 - 1).
Proof.
  apply (showsize_limits_read_back Libc.lp64 1 ["./showsize"]).
  vm_compute. discriminate.
Defined.

(** Lengths of the pieces of the output. *)
Lemma string_length_app (s t : string) :
  String.length (s ++ t) = (String.length s + String.length t)%nat.
Proof.
  induction s as [|c s IH]; [reflexivity|].
  rewrite append_cons. cbn [String.length]. rewrite IH. reflexivity.
Qed.

Lemma length_string_of_uint (d : Decimal.uint) :
  String.length (NilEmpty.string_of_uint d) = Decimal.nb_digits d.
Proof.
  induction d; cbn [NilEmpty.string_of_uint String.length Decimal.nb_digits];
    try rewrite IHd; reflexivity.
Qed.

Lemma length_dec_unsigned (v : Z) :
  String.length (Libc.dec_unsigned v) = Decimal.nb_digits (N.to_uint (Z.to_N v)).
Proof.
  unfold Libc.dec_unsigned, NilZero.string_of_uint.
  pose proof (N_to_uint_nonnil (Z.to_N v)) as Hn.
  destruct (N.to_uint (Z.to_N v)) eqn:E; try congruence;
    rewrite <- E at 1; rewrite length_string_of_uint, E; reflexivity.
Qed.

(** One more decimal digit: [10 q + r] has one digit more than [q]. *)
Lemma to_lu_digit (q r : N) :
  (0 < q)%N -> (r < 10)%N ->
  Decimal.nb_digits (DecimalPos.Unsigned.to_lu (10 * q + r))
  = S (Decimal.nb_digits (DecimalPos.Unsigned.to_lu q)).
Proof.
  intros Hq Hr. destruct q as [|p]; [lia|].
  assert (H : exists k : nat, (k < 10)%nat /\ r = N.of_nat k).
  { exists (N.to_nat r). split; lia. }
  destruct H as (k & Hk & ->).
  pose proof (DecimalPos.Unsigned.to_ldec_tenfold p) as H0.
  set (x := (10 * N.pos p)%N) in *.
  assert (Hit : forall n : nat, (x + N.of_nat n)%N = Nat.iter n N.succ x).
  { induction n as [|n IH].
    - rewrite DecimalPos.Unsigned.nat_iter_0. lia.
    - rewrite DecimalPos.Unsigned.nat_iter_S, <- IH. lia. }
  rewrite Hit.
  do 10 (destruct k as [|k];
         [rewrite ?DecimalPos.Unsigned.nat_iter_S, DecimalPos.Unsigned.nat_iter_0,
            ?DecimalPos.Unsigned.to_lu_succ, H0; reflexivity|]).
  lia.
Qed.

Lemma nb_digits_below_10 (n : N) :
  (n < 10)%N -> Decimal.nb_digits (DecimalPos.Unsigned.to_lu n) = 1%nat.
Proof.
  intros Hn.
  assert (H : exists j : nat, (j < 10)%nat /\ n = N.of_nat j).
  { exists (N.to_nat n). split; lia. }
  destruct H as (j & Hj & ->).
  do 10 (destruct j as [|j]; [reflexivity|]). lia.
Qed.

(** A number below [10^(k+1)] has at most [k+1] decimal digits. *)
Lemma nb_digits_to_lu (k : nat) :
  forall n : N, (n < 10 ^ N.of_nat (S k))%N ->
    (1 <= Decimal.nb_digits (DecimalPos.Unsigned.to_lu n) <= S k)%nat.
Proof.
  induction k as [|k IH]; intros n Hn.
  - change (10 ^ N.of_nat 1)%N with 10%N in Hn.
    rewrite nb_digits_below_10 by exact Hn. lia.
  - destruct (N.ltb_spec n 10) as [Hs|Hl].
    + rewrite nb_digits_below_10 by exact Hs. lia.
    + pose proof (N.div_mod n 10 ltac:(lia)) as Hdm.
      pose proof (N.mod_lt n 10 ltac:(lia)) as Hm.
      assert (Hq : (0 < n / 10)%N) by (apply N.div_str_pos; lia).
      assert (Hq' : (n / 10 < 10 ^ N.of_nat (S k))%N).
      { apply N.Div0.div_lt_upper_bound.
        replace (N.of_nat (S (S k))) with (N.succ (N.of_nat (S k))) in Hn by lia.
        rewrite N.pow_succ_r' in Hn. exact Hn. }
      rewrite Hdm, to_lu_digit by assumption.
      specialize (IH _ Hq'). lia.
Qed.

Lemma length_dec_unsigned_bound (v : Z) (k : nat) :
  v < 10 ^ Z.of_nat (S k) ->
  (1 <= String.length (Libc.dec_unsigned v) <= S k)%nat.
Proof.
  intros Hv. rewrite length_dec_unsigned.
  assert (Hn : (Z.to_N v < 10 ^ N.of_nat (S k))%N).
  { destruct (Z.le_gt_cases v 0) as [H0|H0].
    - replace (Z.to_N v) with 0%N by lia. apply N.neq_0_lt_0, N.pow_nonzero. lia.
    - apply N2Z.inj_lt. rewrite Z2N.id, N2Z.inj_pow, nat_N_Z by lia. exact Hv. }
  pose proof (nb_digits_to_lu k _ Hn) as Hb.
  destruct (Z.to_N v) as [|p]; [cbn in *; lia|].
  cbn [N.to_uint]. unfold Pos.to_uint. rewrite DecimalFacts.nb_digits_rev. exact Hb.
Qed.

Lemma dec_signed_nonneg (v : Z) : 0 <= v -> Libc.dec_signed v = Libc.dec_unsigned v.
Proof.
  intros Hv. destruct v as [|p|p]; [reflexivity | reflexivity | lia].
Qed.

(** X2: the output is small.  On a platform whose [INT_MAX] (not
    negative) has at most [a + 1] decimal digits and whose [ULLONG_MAX]
    has at most [b + 1], the program writes at least 42 and at most
    [42 + a + b] bytes: 70 on LP64. *)
Theorem showsize_output_size (limits : Libc.Limits) (arg : Z) (argv : list string)
        (a b : nat) :
  0 <= Libc.INT_MAX < 10 ^ Z.of_nat (S a) ->
  Libc.ULLONG_MAX < 10 ^ Z.of_nat (S b) ->
  exists out : string,
    Showsize.run arg argv = Some (0, out) /\
    (42 <= String.length out <= 42 + a + b)%nat.
Proof.
  intros [Hi0 Hi] Hu. exists expected_output. split; [apply run_main|].
  unfold expected_output. rewrite !string_length_app.
  rewrite dec_signed_nonneg by exact Hi0.
  pose proof (length_dec_unsigned_bound _ a Hi).
  pose proof (length_dec_unsigned_bound _ b Hu).
  cbn [String.length nl]. lia.
Qed.

Lemma showsize_output_size_witness :
  exists out : string,
    @Showsize.run Libc.lp64 1 ["./showsize"] = Some (0, out) /\
    (42 <= String.length out <= 42 + 9 + 19)%nat.
Proof.
  apply (showsize_output_size Libc.lp64 1 ["./showsize"] 9 19);
    vm_compute; intuition discriminate.
Defined.

Lemma unlines_expected_output (limits : Libc.Limits) :
  unlines (Libc.lines expected_output) = expected_output.
Proof.
  rewrite lines_expected_output. cbn [unlines]. unfold expected_output.
  rewrite !append_assoc. reflexivity.
Qed.

(** X3: the output consists of complete lines: the last byte written is
    a line feed, so splitting the output into lines and joining them
    again, each followed by a line feed, gives back the same bytes. *)
Theorem showsize_prints_complete_lines (limits : Libc.Limits) (arg : Z)
        (argv : list string) :
  exists out : string,
    Showsize.run arg argv = Some (0, out) /\
    unlines (Libc.lines out) = out.
Proof.
  exists expected_output. split; [apply run_main | apply unlines_expected_output].
Qed.

(** X4: the program only appends: started on a standard output that
    already holds some text, it terminates with status 0 and leaves that
    text followed by exactly what it prints on a fresh one. *)
Theorem showsize_appends_to_stdout (limits : Libc.Limits) (arg : Z)
        (argv : list string) (p : Libc.process) :
  exists out : string,
    Showsize.run arg argv = Some (0, out) /\
    Showsize.main arg argv p = Some (0, {| Libc.stdout := Libc.stdout p ++ out |}).
Proof.
  exists expected_output. split; [apply run_main|].
  unfold Showsize.main, Libc.bind, Libc.printf, Libc.ret.
  rewrite format_hi, format_int, format_ull. cbn [Libc.stdout].
  unfold expected_output. rewrite !append_assoc. reflexivity.
Qed.

(** ** III.h  Numbers stored in a [float] *)

(** [binary_round] delivers a number of the format: its mantissa is
    canonical for its exponent.  As in III.b, this is read off the
    definitions of [SpecFloat]. *)

Lemma Zdigits2_upper (m : Z) : 0 <= m -> m < 2 ^ Zdigits2 m.
Proof.
  destruct m as [|p|p]; cbn [Zdigits2]; try lia.
  intros _. apply digits2_pos_bounds.
Qed.

(** The number of bits of [m] is the [d] with [2^(d-1) <= m < 2^d]. *)
Lemma Zdigits2_unique (m d : Z) :
  0 < d -> 2 ^ (d - 1) <= m < 2 ^ d -> Zdigits2 m = d.
Proof.
  intros Hd [Hlo Hhi].
  assert (Hp : 0 < 2 ^ (d - 1)) by (apply Z.pow_pos_nonneg; lia).
  assert (Hm : 0 <= m) by lia.
  destruct (Zdigits2_bounds m Hm) as [H0 Hb]. specialize (Hb ltac:(lia)).
  pose proof (Zdigits2_upper m Hm) as Hu.
  assert (H1 : 2 ^ (d - 1) < 2 ^ Zdigits2 m) by lia.
  assert (H2 : 2 ^ (Zdigits2 m - 1) < 2 ^ d) by lia.
  apply Z.pow_lt_mono_r_iff in H1; [|lia|lia].
  apply Z.pow_lt_mono_r_iff in H2; [|lia|lia].
  lia.
Qed.

Lemma Zdigits2_mono (a b : Z) : 0 <= a <= b -> Zdigits2 a <= Zdigits2 b.
Proof.
  intros [Ha Hab].
  destruct (Zdigits2_bounds a Ha) as [H0 Hlo].
  destruct (Zdigits2_bounds b ltac:(lia)) as [H0b _].
  destruct (Z.eq_dec a 0) as [->|Hne]; [cbn; lia|].
  specialize (Hlo ltac:(lia)).
  pose proof (Zdigits2_upper b ltac:(lia)) as Hu.
  assert (H : 2 ^ (Zdigits2 a - 1) < 2 ^ Zdigits2 b) by lia.
  apply Z.pow_lt_mono_r_iff in H; lia.
Qed.

Section Canonical.
Variables prec emax : Z.
Hypothesis prec_pos : 0 < prec.

Lemma fexp_mono (a b : Z) : a <= b -> fexp prec emax a <= fexp prec emax b.
Proof. unfold fexp. lia. Qed.

(** Shifting to the exponent the format asks for gives a mantissa that
    is canonical at that exponent. *)
Lemma shr_fexp_canonical (m e : Z) :
  0 <= m -> e <= fexp prec emax (Zdigits2 m + e) ->
  let '(mrs, e') := shr_fexp prec emax m e loc_Exact in
  0 <= shr_m mrs /\ fexp prec emax (Zdigits2 (shr_m mrs) + e') = e'.
Proof.
  intros Hm Hn. unfold shr_fexp. cbn [shr_record_of_loc].
  set (f := fexp prec emax (Zdigits2 m + e)) in *.
  pose proof (shr_exact_spec m e (f - e) Hm) as Hshr.
  destruct (shr (Build_shr_record m false false) e (f - e)) as [mrs e'].
  destruct Hshr as [-> [Hq _]].
  rewrite Z.max_r in * by lia.
  replace (e + (f - e)) with f by lia.
  set (n := f - e) in *.
  assert (Hpn : 0 < 2 ^ n) by (apply Z.pow_pos_nonneg; lia).
  assert (Hq0 : 0 <= shr_m mrs) by (rewrite Hq; apply Z.div_pos; lia).
  split; [exact Hq0|].
  destruct (Zdigits2_bounds m Hm) as [Hd0 Hlo].
  pose proof (Zdigits2_upper m Hm) as Hup.
  set (d := Zdigits2 m) in *.
  destruct (Z.eq_dec (shr_m mrs) 0) as [Hz|Hnz].
  - (* everything is shifted out: the exponent is the smallest one *)
    rewrite Hz. cbn [Zdigits2]. rewrite Z.add_0_l.
    assert (Hdn : d <= n).
    { destruct (Z.eq_dec m 0) as [->|Hm0]; [cbn in d; lia|].
      specialize (Hlo ltac:(lia)).
      assert (Hlt : m < 2 ^ n).
      { rewrite Hq in Hz. apply Z.div_small_iff in Hz; lia. }
      assert (H : 2 ^ (d - 1) < 2 ^ n) by lia.
      apply Z.pow_lt_mono_r_iff in H; lia. }
    unfold f, fexp in *. lia.
  - assert (Hm0 : 0 < m).
    { destruct (Z.eq_dec m 0) as [->|]; [|lia]. rewrite Z.div_0_l in Hq by lia. lia. }
    specialize (Hlo Hm0).
    assert (Hge : 2 ^ n <= m).
    { destruct (Z.lt_ge_cases m (2 ^ n)) as [Hlt|]; [|assumption].
      rewrite Hq, Z.div_small in Hnz by lia. congruence. }
    assert (Hdn : n < d).
    { assert (H : 2 ^ n < 2 ^ d) by lia. apply Z.pow_lt_mono_r_iff in H; lia. }
    assert (Hd1 : Zdigits2 (shr_m mrs) = d - n).
    { apply Zdigits2_unique; [lia|]. rewrite Hq. split.
      - apply Z.div_le_lower_bound; [lia|].
        rewrite <- Z.pow_add_r by lia. replace (n + (d - n - 1)) with (d - 1) by lia.
        exact Hlo.
      - apply Z.div_lt_upper_bound; [lia|].
        rewrite <- Z.pow_add_r by lia. replace (n + (d - n)) with d by lia.
        exact Hup. }
    rewrite Hd1. replace (d - n + f) with (d + e) by (unfold n; lia).
    reflexivity.
Qed.

Lemma binary_round_aux_valid (sx : bool) (m e : Z) :
  0 <= m -> e <= fexp prec emax (Zdigits2 m + e) ->
  valid_binary prec emax (binary_round_aux prec emax sx m e loc_Exact) = true.
Proof.
  intros Hm Hn. unfold binary_round_aux.
  pose proof (shr_fexp_canonical m e Hm Hn) as H1.
  destruct (shr_fexp prec emax m e loc_Exact) as [mrs1 e1].
  destruct H1 as (Hq1 & Hc1).
  set (mr := round_nearest_even (shr_m mrs1) (loc_of_shr_record mrs1)) in *.
  destruct (round_nearest_even_bounds (shr_m mrs1) mrs1 eq_refl) as [Hr _].
  fold mr in Hr.
  assert (Hmr : 0 <= mr) by lia.
  assert (Hn2 : e1 <= fexp prec emax (Zdigits2 mr + e1)).
  { rewrite <- Hc1 at 1. apply fexp_mono.
    pose proof (Zdigits2_mono (shr_m mrs1) mr ltac:(lia)). lia. }
  pose proof (shr_fexp_canonical mr e1 Hmr Hn2) as H2.
  destruct (shr_fexp prec emax mr e1 loc_Exact) as [mrs2 e2].
  destruct H2 as (Hq2 & Hc2).
  destruct (shr_m mrs2) as [|p|p] eqn:Hs2; [reflexivity | | lia].
  destruct (Z.leb e2 (emax - prec)) eqn:Hle; [|reflexivity].
  cbn [valid_binary]. unfold bounded, canonical_mantissa.
  cbn [Zdigits2] in Hc2. rewrite Hc2, Z.eqb_refl, Hle. reflexivity.
Qed.

Lemma binary_round_valid (sx : bool) (m : positive) (e : Z) :
  valid_binary prec emax (binary_round prec emax sx m e) = true.
Proof.
  unfold binary_round.
  pose proof (shl_align_spec m e (fexp prec emax (Zpos (digits2_pos m) + e))) as Hal.
  destruct (shl_align m e (fexp prec emax (Zpos (digits2_pos m) + e))) as [mz ez].
  destruct Hal as [Hez Hmz].
  apply binary_round_aux_valid; [lia|].
  assert (Hd : Zdigits2 (Zpos mz) = Zpos (digits2_pos m) + (e - ez)).
  { pose proof (digits2_pos_bounds m) as [Hlo Hhi].
    assert (Hp : 0 < 2 ^ (e - ez)) by (apply Z.pow_pos_nonneg; lia).
    apply Zdigits2_unique; [lia|]. rewrite Hmz. split.
    - replace (Zpos (digits2_pos m) + (e - ez) - 1)
        with ((Zpos (digits2_pos m) - 1) + (e - ez)) by lia.
      rewrite Z.pow_add_r by lia. nia.
    - rewrite Z.pow_add_r by lia. nia. }
  rewrite Hd.
  replace (Zpos (digits2_pos m) + (e - ez) + ez) with (Zpos (digits2_pos m) + e) by lia.
  lia.
Qed.
End Canonical.

(** Whatever the [double], the [float] it is converted to is a binary32
    number. *)
Lemma float_of_double_valid (x : spec_float) :
  valid_binary prec32 emax32 (float_of_double x) = true.
Proof.
  destruct x as [s|s| |s m e]; try reflexivity.
  apply binary_round_valid. reflexivity.
Qed.

(** What being a binary32 number means for the mantissa and the
    exponent. *)
Lemma valid_binary32_shape (x : spec_float) :
  valid_binary prec32 emax32 x = true ->
  match x with
  | S754_finite _ m e => Zpos m < 2 ^ 24 /\ -149 <= e <= 104
  | _ => True
  end.
Proof.
  destruct x as [s|s| |s m e]; try (intros _; exact I).
  cbn [valid_binary]. unfold bounded, canonical_mantissa. intros H.
  apply andb_true_iff in H as [Hc He].
  apply Z.eqb_eq in Hc. apply Z.leb_le in He.
  unfold fexp, emin, prec32, emax32 in *.
  pose proof (digits2_pos_bounds m) as [_ Hu].
  assert (Hd : Zpos (digits2_pos m) <= 24) by lia.
  split; [|lia].
  eapply Z.lt_le_trans; [exact Hu|]. apply Z.pow_le_mono_r; lia.
Qed.

(** ** III.i  The files of [hist.C], in detail *)

Lemma final_pdf_file (gRandom : N -> spec_float) (dir : string)
      (d : gmap string FileData) :
  disk (final gRandom dir d) !! pdf_path dir = Some (PdfDocument [("h", the_hist)]).
Proof.
  rewrite final_disk, lookup_insert_ne by (apply not_eq_sym, pdf_root_distinct).
  apply lookup_insert_eq.
Qed.

(** X5: the document at [hist.pdf] shows exactly one object, the
    histogram [h]: 10 bins on [0, 1], untitled, holding the 10000 entries
    of [FillRandom], sampled with the first numbers of the generator. *)
Theorem hist_pdf_shows_histogram (gRandom : N -> spec_float) (dir : string)
        (d : gmap string FileData) :
  exists (s : Session) (h : TH1F),
    run gRandom dir d = Some s /\
    disk s !! Path.resolve dir "hist.pdf" = Some (PdfDocument [("h", h)]) /\
    h_title h = "" /\ h_nbinsx h = 10 /\ h_xlow h = 0 /\ h_xup h = 1 /\
    h_entries h = 10000 /\ h_sample_from h = Some 0%N.
Proof.
  exists (final gRandom dir d), the_hist.
  split; [apply hist_runs|]. split; [apply final_pdf_file|].
  repeat split.
Qed.

(** The entries of [n] iterations, by index. *)
Lemma rows_map (gRandom : N -> spec_float) (n : nat) :
  forall nd : N,
    rows gRandom nd n
    = map (fun i : nat => row gRandom (nd + 2 * N.of_nat i)%N) (seq 0 n).
Proof.
  induction n as [|n IH]; intros nd; [reflexivity|].
  cbn [rows seq map]. rewrite IH, <- seq_shift, map_map.
  replace (nd + 2 * N.of_nat 0)%N with nd by lia.
  f_equal. apply map_ext. intros i. f_equal. lia.
Qed.

(** X6: the file at [simple_tree.root] holds one tree, [tree], titled
    [Simple TTree], with the branches [pt] and [eta].  Its record number
    [i] (from 0) is computed from two consecutive numbers of the generator,
    [pt] from number [10000 + 2 i] and [eta] from the next one: the first
    10000 went into the histogram, and the run consumes 10200 in all. *)
Theorem hist_records_follow_draws (gRandom : N -> spec_float) (dir : string)
        (d : gmap string FileData) :
  exists (s : Session) (t : TTree),
    run gRandom dir d = Some s /\
    disk s !! Path.resolve dir "simple_tree.root" = Some (RootFile [("tree", t)]) /\
    t_title t = "Simple TTree" /\
    t_branches t = [("pt", "pt"); ("eta", "eta")] /\
    t_entries t
    = map (fun i : nat =>
             [("pt", pt_of (gRandom (10000 + 2 * N.of_nat i)%N));
              ("eta", eta_of (gRandom (10000 + 2 * N.of_nat i + 1)%N))])
          (seq 0 100) /\
    ndraws s = 10200%N.
Proof.
  exists (final gRandom dir d), (the_tree (rows gRandom 10000 100)).
  split; [apply hist_runs|]. split; [apply final_root_file|].
  split; [reflexivity|]. split; [reflexivity|]. split; [|reflexivity].
  cbn [t_entries the_tree]. rewrite rows_map.
  apply map_ext. intros i. unfold row. rewrite N.add_1_r. reflexivity.
Qed.

Lemma rows_ext (g1 g2 : N -> spec_float) (nd : N) (n : nat) :
  (forall k : N, (nd <= k < nd + 2 * N.of_nat n)%N -> g1 k = g2 k) ->
  rows g1 nd n = rows g2 nd n.
Proof.
  intros H. rewrite !rows_map. apply map_ext_in. intros i Hi.
  apply in_seq in Hi. unfold row. rewrite !H by lia. reflexivity.
Qed.

(** X7: the content of the tree file is a function of the generator's
    numbers 10000 to 10199 alone: two runs whose generators agree on these
    write the same file, whatever the other numbers, the directories they
    run in and the disks they start on. *)
Theorem hist_tree_depends_on_200_draws (g1 g2 : N -> spec_float)
        (dir1 dir2 : string) (d1 d2 : gmap string FileData) :
  (forall n : N, (10000 <= n < 10200)%N -> g1 n = g2 n) ->
  exists (s1 s2 : Session) (f : FileData),
    run g1 dir1 d1 = Some s1 /\ run g2 dir2 d2 = Some s2 /\
    disk s1 !! Path.resolve dir1 "simple_tree.root" = Some f /\
    disk s2 !! Path.resolve dir2 "simple_tree.root" = Some f.
Proof.
  intros H.
  exists (final g1 dir1 d1), (final g2 dir2 d2),
         (RootFile [("tree", the_tree (rows g1 10000 100))]).
  split; [apply hist_runs|]. split; [apply hist_runs|].
  split; [apply final_root_file|].
  rewrite (rows_ext g1 g2 10000 100) by (intros k Hk; apply H; lia).
  apply final_root_file.
Qed.

Lemma hist_tree_depends_on_200_draws_witness :
  exists (s1 s2 : Session) (f : FileData),
    run steady "/job1" ∅ = Some s1 /\ run quiet_start "/job2" ∅ = Some s2 /\
    disk s1 !! Path.resolve "/job1" "simple_tree.root" = Some f /\
    disk s2 !! Path.resolve "/job2" "simple_tree.root" = Some f.
Proof.
  apply (hist_tree_depends_on_200_draws steady quiet_start "/job1" "/job2" ∅ ∅).
  intros n Hn. unfold steady, quiet_start.
  destruct (N.ltb_spec n 10000); [lia | reflexivity].
Defined.

(** X8: running the macro again in the same directory replaces both
    files ([RECREATE], and a fresh PDF): the disk after the second run is
    the disk a single run of it would have left. *)
Theorem hist_rerun_replaces_outputs (g0 g : N -> spec_float) (dir : string)
        (d : gmap string FileData) :
  exists s0 s1 s : Session,
    run g0 dir d = Some s0 /\ run g dir (disk s0) = Some s1 /\
    run g dir d = Some s /\ disk s1 = disk s.
Proof.
  exists (final g0 dir d), (final g dir (disk (final g0 dir d))), (final g dir d).
  split; [apply hist_runs|]. split; [apply hist_runs|]. split; [apply hist_runs|].
  rewrite !final_disk.
  rewrite (insert_insert_ne _ (pdf_path dir) (root_path dir)) by apply pdf_root_distinct.
  rewrite !insert_insert_eq. reflexivity.
Qed.

Lemma rows_last (gRandom : N -> spec_float) (n : nat) :
  forall nd : N,
    rows gRandom nd (S n) !! n = Some (row gRandom (nd + 2 * N.of_nat n)%N).
Proof.
  induction n as [|n IH]; intros nd.
  - cbn. f_equal. f_equal. lia.
  - change (rows gRandom nd (S (S n)))
      with (row gRandom nd :: rows gRandom (N.succ (N.succ nd)) (S n)).
    cbn [lookup list_lookup]. rewrite IH. f_equal. f_equal. lia.
Qed.

Lemma floats_after_last (gRandom : N -> spec_float) (n : nat) :
  forall (nd : N) (cur : list (string * spec_float)),
    floats_after gRandom nd (S n) cur = row gRandom (nd + 2 * N.of_nat n)%N.
Proof.
  induction n as [|n IH]; intros nd cur.
  - cbn. f_equal. lia.
  - change (floats_after gRandom nd (S (S n)) cur)
      with (floats_after gRandom (N.succ (N.succ nd)) (S n) (row gRandom nd)).
    rewrite IH. f_equal. lia.
Qed.

(** X10: [Fill] copies the locals: when the macro ends, [pt] and [eta]
    still hold the values of the last record (number 99) of the file. *)
Theorem hist_locals_hold_last_record (gRandom : N -> spec_float) (dir : string)
        (d : gmap string FileData) :
  exists (s : Session) (f : FileData),
    run gRandom dir d = Some s /\
    disk s !! Path.resolve dir "simple_tree.root" = Some f /\
    Fixtures.records f !! 99%nat = Some (floats s).
Proof.
  exists (final gRandom dir d), (RootFile [("tree", the_tree (rows gRandom 10000 100))]).
  split; [apply hist_runs|]. split; [apply final_root_file|].
  rewrite final_records. cbn [floats final].
  rewrite (floats_after_last gRandom 99), (rows_last gRandom 99). reflexivity.
Qed.

(** X11: every number stored in a record is a binary32 number, whatever
    the generator returns (also outside [0, 1], infinite or NaN): the
    [double] results are narrowed by the assignments to the [float]
    locals, so a finite stored value has a mantissa below [2^24] and an
    exponent between -149 and 104. *)
Theorem hist_records_are_single_precision (gRandom : N -> spec_float)
        (dir : string) (d : gmap string FileData) :
  exists (s : Session) (f : FileData),
    run gRandom dir d = Some s /\
    disk s !! Path.resolve dir "simple_tree.root" = Some f /\
    Forall (fun e : entry =>
              Forall (fun kv : string * spec_float =>
                        valid_binary prec32 emax32 (snd kv) = true /\
                        match snd kv with
                        | S754_finite _ m e => Zpos m < 2 ^ 24 /\ -149 <= e <= 104
                        | _ => True
                        end) e)
           (Fixtures.records f).
Proof.
  exists (final gRandom dir d), (RootFile [("tree", the_tree (rows gRandom 10000 100))]).
  split; [apply hist_runs|]. split; [apply final_root_file|].
  rewrite final_records.
  eapply Forall_impl; [apply rows_shape|].
  intros e [k ->]. unfold row, pt_of, eta_of.
  repeat constructor; cbn [snd];
    try apply float_of_double_valid; apply valid_binary32_shape, float_of_double_valid.
Qed.

(** ** III.j  How far the stored numbers are from the exact ones *)

(** The operations of [SpecFloat] round to nearest.  The lemmas below
    follow one rounding through [binary_round_aux], bit by bit, and bound
    the distance between its result and the exact value, a rational
    number. *)

Lemma two_neq_0 : ~ (2 == 0)%Q.
Proof. discriminate. Qed.

Lemma Qpow2_pos (k : Z) : (0 < 2 ^ k)%Q.
Proof. apply Qpower.Qpower_0_lt. reflexivity. Qed.

Lemma Qpow2_inject (k : Z) : 0 <= k -> (inject_Z (2 ^ k) == 2 ^ k)%Q.
Proof. intros Hk. apply (Qpower.Zpower_Qpower 2 k Hk). Qed.

Lemma Qpow2_le (a b : Z) : a <= b -> (2 ^ a <= 2 ^ b)%Q.
Proof. intros H. apply Qpower.Qpower_le_compat_l; [exact H | discriminate]. Qed.

(** The value of a dyadic number, with a power of two. *)
Lemma dyadic_pow (m e : Z) : (dyadic m e == inject_Z m * 2 ^ e)%Q.
Proof.
  destruct e as [|p|p]; unfold dyadic.
  - cbn [Qpower]. ring.
  - rewrite inject_Z_mult, Z.pow_pos_fold, Qpow2_inject by lia. reflexivity.
  - rewrite Qmake_Qdiv, Pos2Z.inj_pow, Qpow2_inject by lia.
    change (Zneg p) with (- Zpos p). rewrite Qpower.Qpower_opp. reflexivity.
Qed.

Lemma SF2Q_finite (s : bool) (m : positive) (e : Z) :
  (SF2Q (S754_finite s m e) == inject_Z (cond_Zopp s (Zpos m)) * 2 ^ e)%Q.
Proof. cbn [SF2Q]. apply dyadic_pow. Qed.

(** An integer bound on mantissas at the exponent [e], as a bound on
    values. *)
Lemma Qabs_scaled (a b e f : Z) :
  Z.abs (a - b) <= 2 ^ (f - e) ->
  (Qabs.Qabs (inject_Z a * 2 ^ e - inject_Z b * 2 ^ e) <= 2 ^ f)%Q.
Proof.
  intros H.
  assert (E : (inject_Z a * 2 ^ e - inject_Z b * 2 ^ e == inject_Z (a - b) * 2 ^ e)%Q).
  { unfold Z.sub. rewrite inject_Z_plus, inject_Z_opp. ring. }
  rewrite E, Qabs.Qabs_Qmult, (Qabs.Qabs_pos (2 ^ e)) by (apply Qlt_le_weak, Qpow2_pos).
  destruct (Z.lt_ge_cases f e) as [Hlt|Hge].
  - rewrite Z.pow_neg_r in H by lia.
    replace (a - b) with 0 by lia.
    assert (E0 : (Qabs.Qabs (inject_Z 0) * 2 ^ e == 0)%Q) by apply Qmult_0_l.
    rewrite E0. apply Qlt_le_weak, Qpow2_pos.
  - assert (Ef : (2 ^ f == inject_Z (2 ^ (f - e)) * 2 ^ e)%Q).
    { rewrite Qpow2_inject by lia. rewrite <- Qpower.Qpower_plus by apply two_neq_0.
      replace (f - e + e) with f by lia. reflexivity. }
    rewrite Ef.
    apply Qmult_le_compat_r; [|apply Qlt_le_weak, Qpow2_pos].
    change (Qabs.Qabs (inject_Z (a - b))) with (inject_Z (Z.abs (a - b))).
    rewrite <- Zle_Qle. exact H.
Qed.

(** *** The rounding bits of a shift *)

Lemma shifted_bits_step (m k : Z) (mrs : shr_record) :
  0 <= m -> 0 <= k -> shifted_bits m k mrs -> shifted_bits m (k + 1) (shr_1 mrs).
Proof.
  intros Hm Hk (Hq & Ht & Hs). cbv zeta in Ht, Hs.
  assert (Hpos : 0 < 2 ^ k) by (apply Z.pow_pos_nonneg; lia).
  assert (Hq0 : 0 <= shr_m mrs) by (rewrite Hq; apply Z.div_pos; lia).
  destruct (shr_1_spec mrs Hq0) as (Hm1 & Hr1 & Hs1).
  assert (Hpow : 2 ^ (k + 1) = 2 ^ k * 2) by (rewrite Z.pow_add_r by lia; lia).
  pose proof (Z.mod_pos_bound m (2 ^ k) Hpos) as Hrem.
  (* the remainder gains the bit that is shifted out *)
  assert (Hrem' : m mod 2 ^ (k + 1)
                  = m mod 2 ^ k + (if Z.odd (shr_m mrs) then 2 ^ k else 0)).
  { rewrite Hpow, Z.rem_mul_r by lia. rewrite <- Hq.
    rewrite Zmod_odd. destruct (Z.odd (shr_m mrs)); lia. }
  split; [rewrite Hm1, Hq, Hpow, Z.div_div by lia; reflexivity|].
  cbv zeta. rewrite Hr1, Hs1, Hrem', Hpow.
  split.
  - destruct (Z.odd (shr_m mrs)); lia.
  - rewrite orb_false_iff. split.
    + intros [Hr Hs0]. rewrite Hr in *. apply Hs in Hs0.
      destruct (Z.odd (shr_m mrs)); lia.
    + intros Ht'.
      assert (Hz : m mod 2 ^ k = 0) by (destruct (Z.odd (shr_m mrs)); lia).
      rewrite Hz in *. destruct (shr_r mrs); [lia|].
      split; [reflexivity|]. apply Hs. lia.
Qed.

Lemma shifted_bits_iter (m : Z) (p : positive) :
  0 <= m ->
  forall k mrs, 0 <= k -> shifted_bits m k mrs ->
                shifted_bits m (k + Zpos p) (SpecFloat.iter_pos shr_1 p mrs).
Proof.
  intros Hm. induction p as [p IH | p IH |]; intros k mrs Hk Hs; cbn [SpecFloat.iter_pos].
  - replace (k + Zpos p~1) with (k + 1 + Zpos p + Zpos p) by lia.
    apply IH; [lia|]. apply IH; [lia|]. apply shifted_bits_step; assumption.
  - replace (k + Zpos p~0) with (k + Zpos p + Zpos p) by lia.
    apply IH; [lia|]. apply IH; assumption.
  - apply shifted_bits_step; assumption.
Qed.

Lemma shr_bits_spec (m e n : Z) :
  0 <= m ->
  let '(mrs, e') := shr (Build_shr_record m false false) e n in
  e' = e + Z.max 0 n /\ shifted_bits m (Z.max 0 n) mrs.
Proof.
  intros Hm. unfold shr.
  assert (H0 : shifted_bits m 0 (Build_shr_record m false false)).
  { split; cbn [shr_m shr_r shr_s]; [rewrite Z.div_1_r; reflexivity|].
    cbv zeta. change (2 ^ 0) with 1. rewrite Z.mod_1_r. split; [lia|].
    split; reflexivity. }
  destruct n as [|p|p].
  - split; [lia | exact H0].
  - split; [lia|]. rewrite Z.max_r by lia.
    apply (shifted_bits_iter m p Hm 0 _ (Z.le_refl 0) H0).
  - split; [lia | exact H0].
Qed.

(** Rounding to nearest: the rounded mantissa, back at the old exponent,
    is within half a unit of [m]. *)
Lemma round_nearest_even_near (m k : Z) (mrs : shr_record) :
  0 <= m -> 0 <= k -> shifted_bits m k mrs ->
  2 * Z.abs (round_nearest_even (shr_m mrs) (loc_of_shr_record mrs) * 2 ^ k - m)
  <= 2 ^ k.
Proof.
  intros Hm Hk (Hq & Ht & Hs). cbv zeta in Ht, Hs.
  assert (Hpos : 0 < 2 ^ k) by (apply Z.pow_pos_nonneg; lia).
  pose proof (Z.div_mod m (2 ^ k) ltac:(lia)) as Hdm. rewrite <- Hq in Hdm.
  pose proof (Z.mod_pos_bound m (2 ^ k) Hpos) as Hrem.
  destruct mrs as [q [|] [|]]; cbn [shr_m shr_r shr_s] in *;
    cbn [loc_of_shr_record round_nearest_even].
  - assert (2 * (m mod 2 ^ k) - 2 ^ k <> 0) by (intros E; apply Hs in E; discriminate).
    lia.
  - destruct (Z.even q); lia.
  - assert (2 * (m mod 2 ^ k) - 0 <> 0) by (intros E; apply Hs in E; discriminate).
    lia.
  - assert (2 * (m mod 2 ^ k) - 0 = 0) by (apply Hs; reflexivity). lia.
Qed.

Section Error.
Variables prec emax : Z.
Hypothesis prec_pos : 0 < prec.

(** The second shift of [binary_round_aux] loses nothing: after rounding
    a canonical mantissa up by at most one, what is shifted out is a zero
    bit. *)
Lemma reshift_exact (q mr e1 : Z) :
  0 <= q -> q <= mr <= q + 1 ->
  fexp prec emax (Zdigits2 q + e1) = e1 ->
  let '(mrs, e2) := shr_fexp prec emax mr e1 loc_Exact in
  e1 <= e2 /\ shr_m mrs * 2 ^ (e2 - e1) = mr.
Proof.
  intros Hq Hmr Hc. unfold shr_fexp. cbn [shr_record_of_loc].
  set (n := fexp prec emax (Zdigits2 mr + e1) - e1).
  pose proof (shr_exact_spec mr e1 n ltac:(lia)) as Hshr.
  destruct (shr (Build_shr_record mr false false) e1 n) as [mrs e2].
  destruct Hshr as [-> [Hm _]].
  pose proof (Zdigits2_mono q mr ltac:(lia)) as Hmono.
  pose proof (fexp_mono prec emax _ _ (proj1 (Z.add_le_mono_r _ _ e1) Hmono)) as Hf.
  assert (Hn0 : 0 <= n) by (unfold n; lia).
  rewrite Z.max_r in * by lia. split; [lia|].
  replace (e1 + n - e1) with n by lia. rewrite Hm.
  destruct (Z.eq_dec n 0) as [->|Hn]; [rewrite Z.div_1_r; lia|].
  (* a real shift: the mantissa has grown by one bit, to a power of two *)
  set (d := Zdigits2 q) in *.
  pose proof (Zdigits2_upper q Hq) as Hup. fold d in Hup.
  destruct (Zdigits2_bounds mr ltac:(lia)) as [_ Hlo].
  assert (Hgrow : d < Zdigits2 mr).
  { destruct (Z.eq_dec (Zdigits2 mr) d) as [E|]; [|lia].
    unfold n in Hn. rewrite E, Hc in Hn. lia. }
  assert (Hd0 : 0 <= d) by (destruct (Zdigits2_bounds q Hq); assumption).
  assert (Hmrpos : 0 < mr).
  { destruct (Z.eq_dec mr 0) as [->|]; [cbn in Hgrow; lia | lia]. }
  specialize (Hlo Hmrpos).
  assert (Hpow : 2 ^ d <= 2 ^ (Zdigits2 mr - 1)) by (apply Z.pow_le_mono_r; lia).
  assert (Emr : mr = 2 ^ d) by lia.
  assert (Ed : Zdigits2 mr = d + 1).
  { apply Zdigits2_unique; [lia|]. replace (d + 1 - 1) with d by lia.
    rewrite Z.pow_add_r by lia. lia. }
  assert (Hn1 : n = 1).
  { unfold n in *. rewrite Ed in *. unfold fexp in *. lia. }
  assert (Hd1 : 1 <= d).
  { destruct (Z.eq_dec d 0) as [E0|]; [|lia]. exfalso.
    unfold n in Hn1. rewrite Ed, E0 in Hn1. rewrite E0 in Hc.
    unfold fexp in *. lia. }
  rewrite Hn1, Emr. change (2 ^ 1) with 2.
  assert (E2 : 2 ^ d = 2 ^ (d - 1) * 2).
  { rewrite <- (Z.pow_1_r 2) at 3. rewrite <- Z.pow_add_r by lia. f_equal. lia. }
  rewrite E2, Z.div_mul by lia. reflexivity.
Qed.

(** [binary_round_aux] rounds to nearest: it moves [m * 2^e] by at most
    half a unit of the exponent it rounds at.  The mantissas are compared
    at the exponent [e]. *)
Lemma binary_round_aux_error (sx : bool) (m e : Z) :
  0 <= m ->
  match binary_round_aux prec emax sx m e loc_Exact with
  | S754_zero s => s = sx /\ 2 * m <= 2 ^ (fexp prec emax (Zdigits2 m + e) - e)
  | S754_finite s m' e' =>
      s = sx /\ e <= e' /\
      2 * Z.abs (Zpos m' * 2 ^ (e' - e) - m)
      <= 2 ^ (fexp prec emax (Zdigits2 m + e) - e)
  | _ => True
  end.
Proof.
  intros Hm. unfold binary_round_aux.
  set (f := fexp prec emax (Zdigits2 m + e)).
  (* the first shift and the rounding, then the second shift *)
  assert (H1 : let '(mrs1, e1) := shr_fexp prec emax m e loc_Exact in
               let mr := round_nearest_even (shr_m mrs1) (loc_of_shr_record mrs1) in
               e <= e1 /\ 0 <= mr /\
               2 * Z.abs (mr * 2 ^ (e1 - e) - m) <= 2 ^ (f - e) /\
               let '(mrs2, e2) := shr_fexp prec emax mr e1 loc_Exact in
               e1 <= e2 /\ shr_m mrs2 * 2 ^ (e2 - e1) = mr).
  { pose proof (shr_fexp_canonical prec emax prec_pos m e Hm) as Hcan.
    unfold shr_fexp in *. cbn [shr_record_of_loc] in *. fold f in Hcan |- *.
    pose proof (shr_exact_spec m e (f - e) Hm) as Hshr.
    pose proof (shr_bits_spec m e (f - e) Hm) as Hbits.
    destruct (shr (Build_shr_record m false false) e (f - e)) as [mrs1 e1].
    destruct Hshr as [-> [Hq _]]. destruct Hbits as [_ Hbits].
    destruct (round_nearest_even_bounds (shr_m mrs1) mrs1 eq_refl) as [Hr _].
    set (k := Z.max 0 (f - e)) in *.
    assert (Hk : 0 <= k) by (unfold k; lia).
    pose proof (round_nearest_even_near m k mrs1 Hm Hk Hbits) as Hnear.
    set (mr := round_nearest_even (shr_m mrs1) (loc_of_shr_record mrs1)) in *.
    assert (Hpk : 0 < 2 ^ k) by (apply Z.pow_pos_nonneg; lia).
    assert (Hq0 : 0 <= shr_m mrs1) by (rewrite Hq; apply Z.div_pos; lia).
    cbv zeta. split; [lia|]. split; [lia|].
    replace (e + k - e) with k by lia.
    destruct (Z.le_gt_cases e f) as [Hef|Hfe].
    - (* shifted: within half a unit *)
      assert (Ek : k = f - e) by (unfold k; lia). rewrite <- Ek.
      split; [exact Hnear|].
      specialize (Hcan Hef). destruct Hcan as [_ Hc].
      replace (e + (f - e)) with (e + k) in Hc by lia.
      apply (reshift_exact (shr_m mrs1) mr (e + k) Hq0 ltac:(lia) Hc).
    - (* not shifted: nothing changes *)
      assert (Ek : k = 0) by (unfold k; lia).
      rewrite Ek in *. change (2 ^ 0) with 1 in *.
      assert (Emr : mr = m) by lia.
      rewrite Emr. split; [rewrite Z.pow_neg_r by lia; lia|].
      rewrite Z.add_0_r.
      pose proof (shr_exact_spec m e (f - e) Hm) as Hshr2.
      fold f. destruct (shr (Build_shr_record m false false) e (f - e)) as [mrs2 e2].
      destruct Hshr2 as [-> [Hq2 _]]. rewrite Z.max_l in * by lia.
      split; [lia|]. rewrite Hq2. replace (e + 0 - e) with 0 by lia.
      change (2 ^ 0) with 1. rewrite Z.div_1_r. lia. }
  destruct (shr_fexp prec emax m e loc_Exact) as [mrs1 e1].
  cbv zeta in H1. destruct H1 as (He1 & Hmr & Herr & H2).
  destruct (shr_fexp prec emax _ e1 loc_Exact) as [mrs2 e2].
  destruct H2 as [He2 Hex2].
  assert (Hscale : shr_m mrs2 * 2 ^ (e2 - e)
                   = round_nearest_even (shr_m mrs1) (loc_of_shr_record mrs1)
                     * 2 ^ (e1 - e)).
  { rewrite <- Hex2. replace (e2 - e) with ((e2 - e1) + (e1 - e)) by lia.
    rewrite Z.pow_add_r by lia. ring. }
  destruct (shr_m mrs2) as [|p|p] eqn:Hs2.
  - split; [reflexivity|]. rewrite <- Hscale in Herr. lia.
  - destruct (Z.leb e2 (emax - prec)); [|exact I].
    split; [reflexivity|]. split; [lia|]. rewrite Hscale. exact Herr.
  - exfalso. assert (0 < 2 ^ (e2 - e1)) by (apply Z.pow_pos_nonneg; lia). nia.
Qed.
End Error.

Lemma Qabs_half_scaled (a b e f : Z) :
  2 * Z.abs (a - b) <= 2 ^ (f - e) ->
  (Qabs.Qabs (inject_Z a * 2 ^ e - inject_Z b * 2 ^ e) <= 2 ^ (f - 1))%Q.
Proof.
  intros H. apply Qabs_scaled.
  destruct (Z.lt_ge_cases (f - e) 1) as [Hs|Hl].
  - assert (Hle : 2 ^ (f - e) <= 1).
    { destruct (Z.lt_ge_cases (f - e) 0); [rewrite Z.pow_neg_r by lia; lia|].
      replace (f - e) with 0 by lia. reflexivity. }
    assert (0 <= 2 ^ (f - 1 - e)) by (apply Z.pow_nonneg; lia). lia.
  - replace (f - e) with (Z.succ (f - 1 - e)) in H by lia.
    rewrite Z.pow_succ_r in H by lia. lia.
Qed.

(** The digits of a mantissa whose value is below [2^B]. *)
Lemma digits_below (m e b eb B : Z) :
  0 <= m -> mag_le m e b eb -> b < 2 ^ (B - eb) -> Zdigits2 m + e <= B.
Proof.
  intros Hm [He Hle] Hb.
  assert (HB : eb <= B).
  { destruct (Z.lt_ge_cases B eb); [rewrite Z.pow_neg_r in Hb by lia|]; [|lia].
    assert (0 < 2 ^ (eb - e)) by (apply Z.pow_pos_nonneg; lia). nia. }
  destruct (Zdigits2_bounds m Hm) as [Hd0 Hlo].
  destruct (Z.eq_dec m 0) as [->|Hne]; [cbn [Zdigits2]; lia|].
  specialize (Hlo ltac:(lia)).
  assert (Hp : 0 < 2 ^ (eb - e)) by (apply Z.pow_pos_nonneg; lia).
  assert (Hlt : 2 ^ (Zdigits2 m - 1) < 2 ^ (B - e)).
  { replace (B - e) with ((B - eb) + (eb - e)) by lia.
    rewrite Z.pow_add_r by lia. nia. }
  apply Z.pow_lt_mono_r_iff in Hlt; lia.
Qed.

Lemma Zabs_cond_Zopp (s : bool) (a b : Z) :
  Z.abs (cond_Zopp s a - cond_Zopp s b) = Z.abs (a - b).
Proof. destruct s; cbn [cond_Zopp]; lia. Qed.

Lemma cond_Zopp_mul (s : bool) (a b : Z) : cond_Zopp s (a * b) = cond_Zopp s a * b.
Proof. destruct s; cbn [cond_Zopp]; lia. Qed.

(** The same value at a smaller exponent. *)
Lemma Qscale (a e e' : Z) :
  e <= e' -> (inject_Z (a * 2 ^ (e' - e)) * 2 ^ e == inject_Z a * 2 ^ e')%Q.
Proof.
  intros H. rewrite inject_Z_mult, Qpow2_inject by lia.
  rewrite <- Qmult_assoc, <- Qpower.Qpower_plus by apply two_neq_0.
  replace (e' - e + e) with e' by lia. reflexivity.
Qed.

Section Values.
Variables prec emax : Z.
Hypothesis prec_pos : 0 < prec.

Lemma binary_round_aux_value (sx : bool) (m e U : Z) :
  0 <= m -> fexp prec emax (Zdigits2 m + e) <= U ->
  is_finite (binary_round_aux prec emax sx m e loc_Exact) = true ->
  (Qabs.Qabs (SF2Q (binary_round_aux prec emax sx m e loc_Exact)
              - inject_Z (cond_Zopp sx m) * 2 ^ e) <= 2 ^ (U - 1))%Q.
Proof.
  intros Hm HU Hfin.
  pose proof (binary_round_aux_error prec emax prec_pos sx m e Hm) as H.
  set (f := fexp prec emax (Zdigits2 m + e)) in *.
  eapply Qle_trans; [|apply Qpow2_le; apply (proj1 (Z.sub_le_mono_r f U 1)); exact HU].
  destruct (binary_round_aux prec emax sx m e loc_Exact) as [s|s| |s m' e'];
    try discriminate.
  - destruct H as [_ H].
    assert (E : (SF2Q (S754_zero s) == inject_Z 0 * 2 ^ e)%Q) by (cbn [SF2Q]; ring).
    rewrite E. apply Qabs_half_scaled.
    destruct sx; cbn [cond_Zopp]; lia.
  - destruct H as (-> & He & H).
    rewrite SF2Q_finite, <- (Qscale _ e e') by exact He.
    apply Qabs_half_scaled.
    rewrite <- cond_Zopp_mul, Zabs_cond_Zopp. exact H.
Qed.

Lemma shl_align_digits (m : positive) (e e' : Z) :
  let '(mz, ez) := shl_align m e e' in
  ez <= e /\ Zpos mz = Zpos m * 2 ^ (e - ez) /\
  Zdigits2 (Zpos mz) + ez = Zpos (digits2_pos m) + e.
Proof.
  pose proof (shl_align_spec m e e') as Hal.
  destruct (shl_align m e e') as [mz ez]. destruct Hal as [Hez Hmz].
  split; [lia|]. split; [exact Hmz|].
  pose proof (digits2_pos_bounds m) as [Hlo Hhi].
  assert (Hp : 0 < 2 ^ (e - ez)) by (apply Z.pow_pos_nonneg; lia).
  assert (Hd : Zdigits2 (Zpos mz) = Zpos (digits2_pos m) + (e - ez)).
  { apply Zdigits2_unique; [lia|]. rewrite Hmz. split.
    - replace (Zpos (digits2_pos m) + (e - ez) - 1)
        with ((Zpos (digits2_pos m) - 1) + (e - ez)) by lia.
      rewrite Z.pow_add_r by lia. nia.
    - rewrite Z.pow_add_r by lia. nia. }
  lia.
Qed.

Lemma binary_round_value (sx : bool) (m : positive) (e U : Z) :
  fexp prec emax (Zpos (digits2_pos m) + e) <= U ->
  is_finite (binary_round prec emax sx m e) = true ->
  (Qabs.Qabs (SF2Q (binary_round prec emax sx m e)
              - inject_Z (cond_Zopp sx (Zpos m)) * 2 ^ e) <= 2 ^ (U - 1))%Q.
Proof.
  unfold binary_round. intros HU Hfin.
  pose proof (shl_align_digits m e (fexp prec emax (Zpos (digits2_pos m) + e))) as Hal.
  destruct (shl_align m e (fexp prec emax (Zpos (digits2_pos m) + e))) as [mz ez].
  destruct Hal as (Hez & Hmz & Hd).
  assert (E : (inject_Z (cond_Zopp sx (Zpos m)) * 2 ^ e
               == inject_Z (cond_Zopp sx (Zpos mz)) * 2 ^ ez)%Q).
  { rewrite Hmz, cond_Zopp_mul, Qscale by exact Hez. reflexivity. }
  rewrite E. apply binary_round_aux_value; [lia | rewrite Hd; exact HU | exact Hfin].
Qed.

Lemma binary_normalize_value (m e U : Z) (szero : bool) :
  fexp prec emax (Zdigits2 m + e) <= U ->
  is_finite (binary_normalize prec emax m e szero) = true ->
  (Qabs.Qabs (SF2Q (binary_normalize prec emax m e szero) - inject_Z m * 2 ^ e)
   <= 2 ^ (U - 1))%Q.
Proof.
  intros HU Hfin. destruct m as [|p|p]; cbn [binary_normalize] in *.
  - assert (E : (SF2Q (S754_zero szero) - inject_Z 0 * 2 ^ e == 0)%Q)
      by (cbn [SF2Q]; ring).
    rewrite E. apply Qlt_le_weak, Qpow2_pos.
  - apply (binary_round_value false p e U HU Hfin).
  - apply (binary_round_value true p e U HU Hfin).
Qed.
End Values.

(** *** The operations of the macro, with their rounding errors *)

Lemma Qabs_zero_le (x : Q) (k : Z) : (x == 0)%Q -> (Qabs.Qabs x <= 2 ^ k)%Q.
Proof. intros E. rewrite E. apply Qlt_le_weak, Qpow2_pos. Qed.

(** [double -> float]: half a unit of the [float] format. *)
Lemma float_of_double_near (x : spec_float) (b eb B : Z) :
  bounded_by b eb x -> b < 2 ^ (B - eb) ->
  is_finite (float_of_double x) = true ->
  (Qabs.Qabs (SF2Q (float_of_double x) - SF2Q x)
   <= 2 ^ (fexp prec32 emax32 B - 1))%Q.
Proof.
  intros Hx Hb Hfin.
  destruct x as [s|s| |s m e]; cbn [bounded_by] in Hx; try contradiction.
  - apply Qabs_zero_le. cbn [float_of_double SF2Q]. ring.
  - cbn [float_of_double] in *. rewrite (SF2Q_finite s m e).
    apply binary_round_value; [reflexivity | | exact Hfin].
    apply fexp_mono.
    apply (digits_below (Zpos m) e b eb B); [lia | exact Hx | exact Hb].
Qed.

Lemma cond_Zopp_xorb (s1 s2 : bool) (a b : Z) :
  cond_Zopp (xorb s1 s2) (a * b) = cond_Zopp s1 a * cond_Zopp s2 b.
Proof. destruct s1, s2; cbn [xorb cond_Zopp]; lia. Qed.

(** The [double] product: half a unit of the [double] format. *)
Lemma dmul_near (x y : spec_float) (b1 eb1 b2 eb2 B : Z) :
  bounded_by b1 eb1 x -> bounded_by b2 eb2 y ->
  b1 * b2 < 2 ^ (B - (eb1 + eb2)) ->
  is_finite (dmul x y) = true ->
  (Qabs.Qabs (SF2Q (dmul x y) - SF2Q x * SF2Q y)
   <= 2 ^ (fexp prec64 emax64 B - 1))%Q.
Proof.
  intros Hx Hy Hb Hfin. unfold dmul in *.
  destruct x as [sx|sx| |sx mx ex], y as [sy|sy| |sy my ey];
    cbn [bounded_by] in Hx, Hy; try contradiction; cbn [SFmul] in *;
    try (apply Qabs_zero_le; cbn [SF2Q]; ring).
  assert (E : (SF2Q (S754_finite sx mx ex) * SF2Q (S754_finite sy my ey)
               == inject_Z (cond_Zopp (xorb sx sy) (Zpos (mx * my))) * 2 ^ (ex + ey))%Q).
  { rewrite !SF2Q_finite, Pos2Z.inj_mul, cond_Zopp_xorb, inject_Z_mult.
    rewrite Qpower.Qpower_plus by apply two_neq_0. ring. }
  rewrite E.
  apply binary_round_aux_value; [reflexivity | lia | | exact Hfin].
  apply fexp_mono.
  apply (digits_below _ _ (b1 * b2) (eb1 + eb2) B); [lia | | exact Hb].
  rewrite Pos2Z.inj_mul. apply mag_le_mul; try lia; assumption.
Qed.

(** Aligning the operands of [x - y], for [0 <= x <= 2 y]. *)
Lemma sub_aligned (mx my : positive) (ex ey b eb : Z) :
  ey <= eb -> Zpos my = b * 2 ^ (eb - ey) -> mag_le (Zpos mx) ex b (eb + 1) ->
  let ez := Z.min ex ey in
  let ax := fst (shl_align mx ex ez) in
  let ay := fst (shl_align my ey ez) in
  Zpos ax = Zpos mx * 2 ^ (ex - ez) /\ Zpos ay = Zpos my * 2 ^ (ey - ez) /\
  mag_le (Z.abs (Zpos ax - Zpos ay)) ez b eb.
Proof.
  intros Hey Hmy [Hex Hlx]. cbv zeta.
  pose proof (shl_align_spec mx ex (Z.min ex ey)) as Hax.
  pose proof (shl_align_spec my ey (Z.min ex ey)) as Hay.
  destruct (shl_align mx ex (Z.min ex ey)) as [ax ezx].
  destruct (shl_align my ey (Z.min ex ey)) as [ay ezy].
  cbn [fst]. destruct Hax as [Hezx Hax], Hay as [Hezy Hay].
  set (ez := Z.min ex ey) in *.
  replace ezx with ez in * by lia. replace ezy with ez in * by lia.
  split; [exact Hax|]. split; [exact Hay|].
  assert (Hp1 : 0 < 2 ^ (ex - ez)) by (apply Z.pow_pos_nonneg; lia).
  assert (Hp2 : 0 < 2 ^ (ey - ez)) by (apply Z.pow_pos_nonneg; lia).
  assert (Hy' : Zpos ay = b * 2 ^ (eb - ez)).
  { rewrite Hay, Hmy, <- Z.mul_assoc, <- Z.pow_add_r by lia.
    f_equal. f_equal. lia. }
  assert (Hx' : Zpos ax <= 2 * (b * 2 ^ (eb - ez))).
  { rewrite Hax.
    replace (2 * (b * 2 ^ (eb - ez))) with (b * 2 ^ (eb + 1 - ex) * 2 ^ (ex - ez)).
    - nia.
    - rewrite <- Z.mul_assoc, <- Z.pow_add_r by lia.
      replace (eb + 1 - ex + (ex - ez)) with (Z.succ (eb - ez)) by lia.
      rewrite Z.pow_succ_r by lia. lia. }
  split; [lia|]. lia.
Qed.

Lemma inject_Z_sub (a b : Z) : (inject_Z (a - b) == inject_Z a - inject_Z b)%Q.
Proof. unfold Z.sub. rewrite inject_Z_plus, inject_Z_opp. reflexivity. Qed.

Lemma Zdigits2_abs (m : Z) : Zdigits2 (Z.abs m) = Zdigits2 m.
Proof. destruct m; reflexivity. Qed.

(** The [double] difference [x - y] for [0 <= x <= 2 y]: half a unit of
    the [double] format. *)
Lemma dsub_near (x : spec_float) (my : positive) (ey b eb B : Z) :
  ey <= eb -> Zpos my = b * 2 ^ (eb - ey) ->
  nonneg x -> bounded_by b (eb + 1) x -> b < 2 ^ (B - eb) ->
  is_finite (dsub x (S754_finite false my ey)) = true ->
  (Qabs.Qabs (SF2Q (dsub x (S754_finite false my ey))
              - (SF2Q x - SF2Q (S754_finite false my ey)))
   <= 2 ^ (fexp prec64 emax64 B - 1))%Q.
Proof.
  intros Hey Hmy Nx Hx Hb Hfin. unfold dsub in *.
  destruct x as [sx|sx| |sx mx ex]; cbn [nonneg bounded_by] in Nx, Hx;
    try contradiction; cbn [SFsub negb] in *.
  - apply Qabs_zero_le. rewrite !SF2Q_finite. cbn [SF2Q cond_Zopp].
    rewrite inject_Z_opp. ring.
  - subst sx. cbn [cond_Zopp] in *.
    destruct (sub_aligned mx my ex ey b eb Hey Hmy Hx) as (Hax & Hay & Hmag).
    cbv zeta in Hax, Hay, Hmag.
    set (ez := Z.min ex ey) in *.
    set (ax := fst (shl_align mx ex ez)) in *.
    set (ay := fst (shl_align my ey ez)) in *.
    assert (E : (SF2Q (S754_finite false mx ex) - SF2Q (S754_finite false my ey)
                 == inject_Z (Zpos ax - Zpos ay) * 2 ^ ez)%Q).
    { rewrite !SF2Q_finite. cbn [cond_Zopp].
      rewrite <- (Qscale (Zpos mx) ez ex), <- (Qscale (Zpos my) ez ey) by (unfold ez; lia).
      rewrite <- Hax, <- Hay, inject_Z_sub. ring. }
    rewrite E.
    apply binary_normalize_value; [reflexivity | | exact Hfin].
    apply fexp_mono. rewrite <- Zdigits2_abs.
    apply (digits_below _ _ b eb B); [lia | exact Hmag | exact Hb].
Qed.

Lemma bounded_by_finite (x : spec_float) (b eb : Z) :
  bounded_by b eb x -> is_finite x = true.
Proof. destruct x; cbn [bounded_by is_finite]; auto; contradiction. Qed.

(** [pt] is [150 r], rounded twice: once as a [double], once as a
    [float]. *)
Lemma pt_of_near (r : spec_float) :
  in_unit_interval r ->
  (Qabs.Qabs (SF2Q (pt_of r) - 150 * SF2Q r) <= 2 ^ (-17) + 2 ^ (-46))%Q.
Proof.
  intros Hr. destruct (unit_interval_bounded r Hr) as [Nr Br].
  destruct (pt_of_range r Hr) as [Hfin _].
  unfold pt_of in *.
  assert (B150 : bounded_by 75 1 (double_of_int 150)) by (vm_compute; intuition discriminate).
  assert (Hrep64 : representable prec64 emax64 (1 * 75) (0 + 1))
    by (vm_compute; intuition discriminate).
  pose proof (SFmul_bounded prec64 emax64 ltac:(reflexivity) r _ 1 0 75 1
                Hrep64 Br B150) as Bm.
  fold (dmul r (double_of_int 150)) in Bm.
  set (d := dmul r (double_of_int 150)) in *.
  assert (E1 : (Qabs.Qabs (SF2Q d - SF2Q r * 150) <= 2 ^ (-46))%Q).
  { pose proof (dmul_near r (double_of_int 150) 1 0 75 1 8 Br B150 eq_refl
                  (bounded_by_finite _ _ _ Bm)) as H.
    assert (E150 : (SF2Q (double_of_int 150) == 150)%Q) by reflexivity.
    rewrite E150 in H. exact H. }
  assert (E2 : (Qabs.Qabs (SF2Q (float_of_double d) - SF2Q d) <= 2 ^ (-17))%Q).
  { apply (float_of_double_near d (1 * 75) (0 + 1) 8 Bm); [reflexivity | exact Hfin]. }
  assert (E : (SF2Q (float_of_double d) - 150 * SF2Q r
               == (SF2Q (float_of_double d) - SF2Q d) + (SF2Q d - SF2Q r * 150))%Q) by ring.
  rewrite E. eapply Qle_trans; [apply Qabs.Qabs_triangle|].
  apply Qplus_le_compat; assumption.
Qed.

(** [eta] is [10 r - 5], rounded three times: the product and the
    difference as [double]s, the result as a [float]. *)
Lemma eta_of_near (r : spec_float) :
  in_unit_interval r ->
  (Qabs.Qabs (SF2Q (eta_of r) - (10 * SF2Q r - 5))
   <= 2 ^ (-22) + 2 ^ (-51) + 2 ^ (-50))%Q.
Proof.
  intros Hr. destruct (unit_interval_bounded r Hr) as [Nr Br].
  destruct (eta_of_range r Hr) as [Hfin _].
  unfold eta_of, double_lit in *.
  assert (H10 : bounded_by 5 1 (double_of_int 10) /\ nonneg (double_of_int 10))
    by (vm_compute; intuition discriminate).
  destruct H10 as [B10 N10].
  assert (Hrep10 : representable prec64 emax64 (1 * 5) (0 + 1))
    by (vm_compute; intuition discriminate).
  pose proof (SFmul_bounded prec64 emax64 ltac:(reflexivity) r _ 1 0 5 1
                Hrep10 Br B10) as Bm.
  pose proof (SFmul_nonneg prec64 emax64 ltac:(reflexivity) r _ 1 0 5 1
                Hrep10 Br B10 Nr N10) as Nm.
  fold (dmul r (double_of_int 10)) in Bm, Nm.
  set (x := dmul r (double_of_int 10)) in *.
  assert (E1 : (Qabs.Qabs (SF2Q x - SF2Q r * 10) <= 2 ^ (-50))%Q).
  { pose proof (dmul_near r (double_of_int 10) 1 0 5 1 4 Br B10 eq_refl
                  (bounded_by_finite _ _ _ Bm)) as H.
    assert (E10 : (SF2Q (double_of_int 10) == 10)%Q) by reflexivity.
    rewrite E10 in H. exact H. }
  change (double_of_int 5) with (S754_finite false 5629499534213120 (-50)) in *.
  assert (Hrep5 : representable prec64 emax64 5 0) by (vm_compute; intuition discriminate).
  assert (Bs : bounded_by 5 0 (dsub x (S754_finite false 5629499534213120 (-50)))).
  { apply SFsub_bounded;
      [reflexivity | exact Hrep5 | lia | reflexivity | exact Nm | exact Bm]. }
  set (y := dsub x (S754_finite false 5629499534213120 (-50))) in *.
  assert (E2 : (Qabs.Qabs (SF2Q y - (SF2Q x - 5)) <= 2 ^ (-51))%Q).
  { pose proof (dsub_near x 5629499534213120 (-50) 5 0 3 ltac:(lia) eq_refl
                  Nm Bm eq_refl (bounded_by_finite _ _ _ Bs)) as H.
    assert (E5 : (SF2Q (S754_finite false 5629499534213120 (-50)) == 5)%Q)
      by reflexivity.
    rewrite E5 in H. exact H. }
  assert (E3 : (Qabs.Qabs (SF2Q (float_of_double y) - SF2Q y) <= 2 ^ (-22))%Q).
  { apply (float_of_double_near y 5 0 3 Bs); [reflexivity | exact Hfin]. }
  assert (E : (SF2Q (float_of_double y) - (10 * SF2Q r - 5)
               == ((SF2Q (float_of_double y) - SF2Q y) + (SF2Q y - (SF2Q x - 5)))
                  + (SF2Q x - SF2Q r * 10))%Q) by ring.
  rewrite E. eapply Qle_trans; [apply Qabs.Qabs_triangle|].
  apply Qplus_le_compat; [|exact E1].
  eapply Qle_trans; [apply Qabs.Qabs_triangle|].
  apply Qplus_le_compat; assumption.
Qed.

Lemma Forall2_map_diag {A B : Type} (P : A -> B -> Prop) (f : B -> A) (l : list B) :
  Forall (fun x => P (f x) x) l -> Forall2 P (map f l) l.
Proof. induction 1; cbn [map]; constructor; assumption. Qed.

(** X12: when every number the generator returns lies in [0, 1], each
    stored value is the exact result rounded to nearest at every step:
    the [pt] of record [i] is within [2^-17 + 2^-46] of [150 r], and its
    [eta] within [2^-22 + 2^-51 + 2^-50] of [10 r' - 5], where [r] and
    [r'] are the generator's numbers [10000 + 2 i] and [10000 + 2 i + 1].
    The terms are half a unit in the last place of the [float] and of
    the [double] results. *)
Theorem hist_records_are_correctly_rounded (gRandom : N -> spec_float)
        (dir : string) (d : gmap string FileData) :
  (forall n : N, in_unit_interval (gRandom n)) ->
  exists (s : Session) (f : FileData),
    run gRandom dir d = Some s /\
    disk s !! Path.resolve dir "simple_tree.root" = Some f /\
    Forall2 (fun (e : entry) (i : nat) =>
               exists pt eta : spec_float,
                 e = [("pt", pt); ("eta", eta)] /\
                 (Qabs.Qabs (SF2Q pt - 150 * SF2Q (gRandom (10000 + 2 * N.of_nat i)%N))
                  <= 2 ^ (-17) + 2 ^ (-46))%Q /\
                 (Qabs.Qabs (SF2Q eta
                             - (10 * SF2Q (gRandom (10000 + 2 * N.of_nat i + 1)%N) - 5))
                  <= 2 ^ (-22) + 2 ^ (-51) + 2 ^ (-50))%Q)
            (Fixtures.records f) (seq 0 100).
Proof.
  intros Hgen.
  exists (final gRandom dir d), (RootFile [("tree", the_tree (rows gRandom 10000 100))]).
  split; [apply hist_runs|]. split; [apply final_root_file|].
  rewrite final_records, rows_map. apply Forall2_map_diag, Forall_forall.
  intros i _. eexists _, _. split; [reflexivity|].
  split; [apply pt_of_near, Hgen|].
  rewrite N.add_1_r. apply eta_of_near, Hgen.
Qed.

(** The bounds, for a generator stuck at 1/2. *)
Lemma hist_records_are_correctly_rounded_witness :
  exists (s : Session) (f : FileData),
    run steady "/job" ∅ = Some s /\
    disk s !! Path.resolve "/job" "simple_tree.root" = Some f /\
    Forall2 (fun (e : entry) (i : nat) =>
               exists pt eta : spec_float,
                 e = [("pt", pt); ("eta", eta)] /\
                 (Qabs.Qabs (SF2Q pt - 150 * SF2Q (steady (10000 + 2 * N.of_nat i)%N))
                  <= 2 ^ (-17) + 2 ^ (-46))%Q /\
                 (Qabs.Qabs (SF2Q eta
                             - (10 * SF2Q (steady (10000 + 2 * N.of_nat i + 1)%N) - 5))
                  <= 2 ^ (-22) + 2 ^ (-51) + 2 ^ (-50))%Q)
            (Fixtures.records f) (seq 0 100).
Proof.
  apply (hist_records_are_correctly_rounded steady "/job" ∅).
  intros n. repeat split; vm_compute; congruence.
Defined.
